(** * The compressor engine of [strategies.py]: move scorer, position scorer,
      fixed-depth search and search controller.

    The chess library is an external collaborator: positions and moves are
    reached through the methods the module calls, collected in the class
    [ChessAPI].  Python exceptions are results of type [outcome]; the class
    attribute [move_counter], the calls made on the shared board and the
    printed statistics line are threaded through the monad [Py]. *)

From Stdlib Require Import ZArith List Bool Lia.
From Stdlib Require String Ascii.
Import ListNotations.
Open Scope Z_scope.

(** ** Python values and exceptions *)

Inductive exn : Type := IndexError | KeyError | TypeError.

Inductive outcome (A : Type) : Type :=
| Return (a : A)
| Raise (e : exn).
Arguments Return {A} a.
Arguments Raise {A} e.

Definition obind {A B : Type} (x : outcome A) (f : A -> outcome B) : outcome B :=
  match x with
  | Return a => f a
  | Raise e => Raise e
  end.

Declare Scope outcome_scope.
Delimit Scope outcome_scope with out.
Notation "'let!' x ':=' c 'in' k" := (obind c (fun x => k))
  (at level 10, x name, c at level 100, k at level 200) : outcome_scope.
Open Scope outcome_scope.

(** [l[i]] on a Python list: a negative index counts from the end, anything
    outside [-len, len) raises IndexError. *)
Definition py_index {A : Type} (l : list A) (i : Z) : outcome A :=
  let n := Z.of_nat (length l) in
  let j := if i <? 0 then i + n else i in
  if (j <? 0) || (n <=? j) then Raise IndexError
  else match nth_error l (Z.to_nat j) with
       | Some x => Return x
       | None => Raise IndexError
       end.

(** [bool << n] and [x or 0]. *)
Definition int_of_bool (b : bool) : Z := if b then 1 else 0.

Definition or_zero (x : option Z) : Z :=
  match x with
  | Some v => v
  | None => 0
  end.

(** The elements of a generator, evaluated left to right; the first exception
    ends the evaluation. *)
Fixpoint traverse {A B : Type} (f : A -> outcome B) (l : list A) : outcome (list B) :=
  match l with
  | [] => Return []
  | x :: t =>
      let! y := f x in
      let! ys := traverse f t in
      Return (y :: ys)
  end.

(** [max(iterable, default=d)]. *)
Definition py_max_default (l : list Z) (d : Z) : Z :=
  match l with
  | [] => d
  | x :: t => fold_left Z.max t x
  end.

(** ** Constants of the chess library *)

Definition WHITE : bool := true.
Definition BLACK : bool := false.

Definition PAWN : Z := 1.
Definition KNIGHT : Z := 2.
Definition BISHOP : Z := 3.
Definition ROOK : Z := 4.
Definition QUEEN : Z := 5.
Definition KING : Z := 6.

(** [chess.square_mirror]: [square ^ 0x38]. *)
Definition square_mirror (square : Z) : Z := Z.lxor square 56.

(** ** Piece-square tables *)

Definition PSQT_PAWN : list Z :=
  [  0;  0;  0;  0;  0;  0;  0;  0;
    50; 50; 50; 50; 50; 50; 50; 50;
    10; 10; 20; 30; 30; 20; 10; 10;
     5;  5; 10; 25; 25; 10;  5;  5;
     0;  0;  0; 20; 21;  0;  0;  0;
     5; -5;-10;  0;  0;-10; -5;  5;
     5; 10; 10;-31;-31; 10; 10;  5;
     0;  0;  0;  0;  0;  0;  0;  0 ].

Definition PSQT_KNIGHT : list Z :=
  [ -50;-40;-30;-30;-30;-30;-40;-50;
    -40;-20;  0;  0;  0;  0;-20;-40;
    -30;  0; 10; 15; 15; 10;  0;-30;
    -30;  5; 15; 20; 20; 15;  5;-30;
    -30;  0; 15; 20; 20; 15;  0;-30;
    -30;  5; 10; 15; 15; 11;  5;-30;
    -40;-20;  0;  5;  5;  0;-20;-40;
    -50;-40;-30;-30;-30;-30;-40;-50 ].

Definition PSQT_BISHOP : list Z :=
  [ -20;-10;-10;-10;-10;-10;-10;-20;
    -10;  0;  0;  0;  0;  0;  0;-10;
    -10;  0;  5; 10; 10;  5;  0;-10;
    -10;  5;  5; 10; 10;  5;  5;-10;
    -10;  0; 10; 10; 10; 10;  0;-10;
    -10; 10; 10; 10; 10; 10; 10;-10;
    -10;  5;  0;  0;  0;  0;  5;-10;
    -20;-10;-10;-10;-10;-10;-10;-20 ].

Definition PSQT_ROOK : list Z :=
  [  0;  0;  0;  0;  0;  0;  0;  0;
     5; 10; 10; 10; 10; 10; 10;  5;
    -5;  0;  0;  0;  0;  0;  0; -5;
    -5;  0;  0;  0;  0;  0;  0; -5;
    -5;  0;  0;  0;  0;  0;  0; -5;
    -5;  0;  0;  0;  0;  0;  0; -5;
    -5;  0;  0;  0;  0;  0;  0; -5;
     0;  0;  0;  5;  5;  0;  0;  0 ].

Definition PSQT_QUEEN : list Z :=
  [ -20;-10;-10; -5; -5;-10;-10;-20;
    -10;  0;  0;  0;  0;  0;  0;-10;
    -10;  0;  5;  5;  5;  5;  0;-10;
     -5;  0;  5;  5;  5;  5;  0; -5;
      0;  0;  5;  5;  5;  5;  0; -5;
    -10;  5;  5;  5;  5;  5;  0;-10;
    -10;  0;  5;  0;  0;  0;  0;-10;
    -20;-10;-10; -5; -5;-10;-10;-20 ].

Definition PSQT_KING : list Z :=
  [ -30;-40;-40;-50;-50;-40;-40;-30;
    -30;-40;-40;-50;-50;-40;-40;-30;
    -30;-40;-40;-50;-50;-40;-40;-30;
    -30;-40;-40;-50;-50;-40;-40;-30;
    -20;-30;-30;-40;-40;-30;-30;-20;
    -10;-20;-20;-20;-20;-20;-20;-10;
     20; 20;  0;  0;  0;  0; 20; 20;
      1; 30; 10;  0;  0; 10; 30;  2 ].

(** The dictionary [PSQT]; its keys are the six piece types.  The key the
    module looks up is what [piece_type_at] returned, which may be [None]. *)
Definition PSQT (piece_type : option Z) : outcome (list Z) :=
  match piece_type with
  | Some 1 => Return PSQT_PAWN
  | Some 2 => Return PSQT_KNIGHT
  | Some 3 => Return PSQT_BISHOP
  | Some 4 => Return PSQT_ROOK
  | Some 5 => Return PSQT_QUEEN
  | Some 6 => Return PSQT_KING
  | _ => Raise KeyError
  end.

(** [PSQT[t][i]]. *)
Definition PSQT_at (piece_type : option Z) (i : Z) : outcome Z :=
  let! table := PSQT piece_type in
  py_index table i.

(** ** The position and move interface

    [pieces] and [attacks] return square sets, which the library keeps as
    64-bit masks: bit [s] stands for square [s]; [&] is [Z.land] and the
    truth value of a set is that its mask is not zero.  [attacks board s] is
    the set of squares attacked from [s] by the piece standing on [s].
    [push] gives the position after a move; the library's [pop] takes it
    back, so after [push]/[pop] the caller holds the position it had. *)
Class ChessAPI (Board Move : Type) : Type := {
  from_square : Move -> Z;
  to_square : Move -> Z;
  promotion : Move -> option Z;
  turn : Board -> bool;
  legal_moves : Board -> list Move;
  piece_type_at : Board -> Z -> option Z;
  pieces : Board -> Z -> bool -> Z;
  attacks : Board -> Z -> Z;
  is_capture : Board -> Move -> bool;
  push : Board -> Move -> Board
}.

(** ** Move scorer and position scorer *)

Definition NEG_INF : Z := - 10 ^ 32.
Definition INF : Z := 10 ^ 32.

Definition _piece_value (color : bool) (piece_type : option Z) (square : Z) : outcome Z :=
  let! table := PSQT piece_type in
  py_index table (if Bool.eqb color BLACK then square else square_mirror square).

Section Scorer.
Context {Board Move : Type} {API : ChessAPI Board Move}.

Definition _move_value (board : Board) (move : Move) : outcome Z :=
  let piece_type := piece_type_at board (from_square move) in
  let! v_to := _piece_value (turn board) piece_type (to_square move) in
  let! v_from := _piece_value (turn board) piece_type (from_square move) in
  Return (v_to - v_from).

Definition _pawn_attacks (board : Board) (move : Move) : outcome Z :=
  let pawn_attacks :=
    Z.land (pieces board PAWN (negb (turn board))) (attacks board (to_square move)) in
  if pawn_attacks =? 0 then Return 6
  else match piece_type_at board (from_square move) with
       | Some t => Return (5 - t)
       | None => Raise TypeError
       end.

Definition _score_move (board : Board) (move : Move) : outcome Z :=
  let f_promotion := Z.shiftl (or_zero (promotion move)) 26 in
  let f_capture := Z.shiftl (int_of_bool (is_capture board move)) 25 in
  let! exposure := _pawn_attacks board move in
  let! delta := _move_value board move in
  Return (f_promotion
          + f_capture
          + Z.shiftl exposure 22
          + (512 + Z.shiftl delta 12)
          + Z.shiftl (to_square move) 6
          + from_square move).

Definition _score_board (board : Board) : outcome Z :=
  let! scores := traverse (_score_move board) (legal_moves board) in
  Return (py_max_default scores NEG_INF).

End Scorer.

(** ** Engine state and the monad of the engine's methods *)

(** A call the engine makes on the shared board object. *)
Inductive board_call (Move : Type) : Type :=
| CallPush (m : Move)
| CallPop.
Arguments CallPush {Move} m.
Arguments CallPop {Move}.

(** [move_counter] is the class attribute [CompressorEngine.move_counter];
    [board_calls] lists the calls made on the board, latest first; [stdout]
    lists the numbers printed as NUM MOVES EVALUATED, latest first. *)
Record EngineState (Move : Type) : Type := {
  move_counter : Z;
  board_calls : list (board_call Move);
  stdout : list Z
}.
Arguments move_counter {Move} _.
Arguments board_calls {Move} _.
Arguments stdout {Move} _.

(** The state a fresh interpreter starts in ([move_counter = 0]). *)
Definition initial_state (Move : Type) : EngineState Move :=
  {| move_counter := 0; board_calls := []; stdout := [] |}.

Definition Py (Move A : Type) : Type :=
  EngineState Move -> outcome A * EngineState Move.

Definition ret {Move A : Type} (a : A) : Py Move A := fun st => (Return a, st).

Definition bind {Move A B : Type} (c : Py Move A) (f : A -> Py Move B) : Py Move B :=
  fun st =>
    match c st with
    | (Return a, st') => f a st'
    | (Raise e, st') => (Raise e, st')
    end.

Definition lift {Move A : Type} (x : outcome A) : Py Move A := fun st => (x, st).

Declare Scope py_scope.
Delimit Scope py_scope with py.
Notation "x <- c ;; k" := (bind c (fun x => k))
  (at level 61, c at next level, right associativity) : py_scope.
Notation "c ;;; k" := (bind c (fun _ => k))
  (at level 61, right associativity) : py_scope.

(** [CompressorEngine.move_counter += 1] *)
Definition incr_move_counter {Move : Type} : Py Move unit :=
  fun st => (Return tt, {| move_counter := move_counter st + 1;
                           board_calls := board_calls st;
                           stdout := stdout st |}).

Definition call_push {Move : Type} (m : Move) : Py Move unit :=
  fun st => (Return tt, {| move_counter := move_counter st;
                           board_calls := CallPush m :: board_calls st;
                           stdout := stdout st |}).

Definition call_pop {Move : Type} : Py Move unit :=
  fun st => (Return tt, {| move_counter := move_counter st;
                           board_calls := CallPop :: board_calls st;
                           stdout := stdout st |}).

(** [print(f"NUM MOVES EVALUATED: {CompressorEngine.move_counter}")] *)
Definition print_move_counter {Move : Type} : Py Move unit :=
  fun st => (Return tt, {| move_counter := move_counter st;
                           board_calls := board_calls st;
                           stdout := move_counter st :: stdout st |}).

(** [CompressorEngine.move_counter = 0] *)
Definition reset_move_counter {Move : Type} : Py Move unit :=
  fun st => (Return tt, {| move_counter := 0;
                           board_calls := board_calls st;
                           stdout := stdout st |}).

(** The number of [board.push] calls recorded in a state. *)
Fixpoint pushes {Move : Type} (calls : list (board_call Move)) : Z :=
  match calls with
  | [] => 0
  | CallPush _ :: t => 1 + pushes t
  | CallPop :: t => pushes t
  end.

(** ** Library functions used by the controller *)

(** [random.choice(seq)]; [rnd] is the number the generator draws. *)
Definition random_choice {A : Type} (rnd : nat) (seq : list A) : outcome A :=
  match seq with
  | [] => Raise IndexError
  | _ :: _ =>
      match nth_error seq (Nat.modulo rnd (length seq)) with
      | Some x => Return x
      | None => Raise IndexError
      end
  end.

(** A stable ascending sort of decorated elements. *)
Fixpoint insert_keyed {A : Type} (x : Z * A) (l : list (Z * A)) : list (Z * A) :=
  match l with
  | [] => [x]
  | y :: t => if fst x <=? fst y then x :: y :: t else y :: insert_keyed x t
  end.

Fixpoint stable_sort {A : Type} (l : list (Z * A)) : list (Z * A) :=
  match l with
  | [] => []
  | x :: t => insert_keyed x (stable_sort t)
  end.

(** [sorted(l, key=key, reverse=reverse)].  The keys are computed once, in
    order.  With [reverse] the list is reversed, sorted by the same stable
    ascending sort and reversed again, which is how the interpreter keeps
    equal keys in their original order in a descending sort. *)
Definition py_sorted {A : Type} (key : A -> outcome Z) (reverse : bool) (l : list A)
  : outcome (list A) :=
  let! keys := traverse key l in
  let keyed := combine keys l in
  Return (map snd (if reverse then rev (stable_sort (rev keyed)) else stable_sort keyed)).

(** ** The engine *)

Record Config : Type := {
  RANDOM : bool;
  MAX_DEPTH : Z
}.

(** The constants as the module sets them ([DEBUG] is [False] there as well:
    its branches only print and are left out). *)
Definition module_config : Config := {| RANDOM := false; MAX_DEPTH := -1 |}.

Record PlayResult (Move : Type) : Type := {
  move : option Move;
  ponder : option Move;
  draw_offered : bool
}.
Arguments move {Move} _.
Arguments ponder {Move} _.
Arguments draw_offered {Move} _.

Section Engine.
Context {Board Move : Type} {API : ChessAPI Board Move}.
Open Scope py_scope.

(** The value returned when [depth <= 0]. *)
Definition terminal_value (board : Board) : outcome Z :=
  if (Z.of_nat (length (legal_moves board)) =? 0) then Return NEG_INF
  else _score_board board.

(** The [for] loop of a maximizing node over the moves still to visit;
    [child m alpha beta] is the value of the recursive call made between
    [board.push(m)] and [board.pop()]. *)
Fixpoint max_loop (child : Move -> Z -> Z -> Py Move Z) (moves : list Move)
    (best_move : Move) (best_val alpha beta : Z) : Py Move (Move * Z) :=
  match moves with
  | [] => ret (best_move, best_val)
  | m :: rest =>
      incr_move_counter ;;;
      call_push m ;;;
      s <- child m alpha beta ;;
      call_pop ;;;
      let best_move' := if s >? best_val then m else best_move in
      let best_val' := if s >? best_val then s else best_val in
      let alpha' := Z.max best_val' alpha in
      if beta <? s then ret (best_move', best_val')
      else max_loop child rest best_move' best_val' alpha' beta
  end.

(** The [for] loop of a minimizing node. *)
Fixpoint min_loop (child : Move -> Z -> Z -> Py Move Z) (moves : list Move)
    (best_move : Move) (best_val alpha beta : Z) : Py Move (Move * Z) :=
  match moves with
  | [] => ret (best_move, best_val)
  | m :: rest =>
      incr_move_counter ;;;
      call_push m ;;;
      s <- child m alpha beta ;;
      call_pop ;;;
      let best_move' := if s <? best_val then m else best_move in
      let best_val' := if s <? best_val then s else best_val in
      let beta' := Z.min best_val' beta in
      if s <=? alpha then ret (best_move', best_val')
      else min_loop child rest best_move' best_val' alpha beta'
  end.

(** [_recur], by recursion on the number of plies left
    ([Z.to_nat depth]: zero exactly when [depth <= 0]). *)
Fixpoint recur_plies (plies : nat) (board : Board) (maximize : bool) (alpha beta : Z)
  : Py Move (option Move * Z) :=
  match plies with
  | O => v <- lift (terminal_value board) ;; ret (None, v)
  | S plies' =>
      let child := fun m a b =>
        r <- recur_plies plies' (push board m) (negb maximize) a b ;; ret (snd r) in
      match legal_moves board with
      | [] => ret (None, NEG_INF)
      | first :: _ =>
          r <- (if maximize
                then max_loop child (legal_moves board) first NEG_INF alpha beta
                else min_loop child (legal_moves board) first INF alpha beta) ;;
          ret (Some (fst r), snd r)
      end
  end.

Definition _recur (depth : Z) (board : Board) (maximize : bool) (alpha beta : Z)
  : Py Move (option Move * Z) :=
  recur_plies (Z.to_nat depth) board maximize alpha beta.

(** [_ab_search(board, MAX_DEPTH)]: the move of [_recur(MAX_DEPTH, board, True)],
    with the default window. *)
Definition _ab_search (board : Board) (max_depth : Z) : Py Move (option Move) :=
  r <- _recur max_depth board true NEG_INF INF ;;
  ret (fst r).

(** [search]; [time_limit], [ponder] and [root_moves] are not read. *)
Definition search (cfg : Config) (rnd : nat) (board : Board) (offered : bool)
  : Py Move (PlayResult Move) :=
  if RANDOM cfg then
    m <- lift (random_choice rnd (legal_moves board)) ;;
    ret {| move := Some m; ponder := None; draw_offered := offered |}
  else
    best_move <- (if MAX_DEPTH cfg =? -1 then
                    sorted_moves <- lift (py_sorted (_score_move board) true
                                                     (legal_moves board)) ;;
                    m <- lift (py_index sorted_moves 0) ;;
                    ret (Some m)
                  else _ab_search board (MAX_DEPTH cfg)) ;;
    print_move_counter ;;;
    reset_move_counter ;;;
    ret {| move := best_move; ponder := None; draw_offered := offered |}.

(** Exhaustive minimax to the same number of plies: every legal move of
    every node is searched, a node takes the greatest (maximizing) or least
    (minimizing) of its children's values, a node without legal moves is
    worth [NEG_INF], and a node at depth zero is worth [terminal_value].
    [greatest] and [least] are read on non-empty lists only. *)
Definition greatest (l : list Z) : Z :=
  match l with
  | [] => 0
  | x :: t => fold_left Z.max t x
  end.

Definition least (l : list Z) : Z :=
  match l with
  | [] => 0
  | x :: t => fold_left Z.min t x
  end.

Fixpoint minimax_plies (plies : nat) (board : Board) (maximize : bool) : outcome Z :=
  match plies with
  | O => terminal_value board
  | S plies' =>
      match legal_moves board with
      | [] => Return NEG_INF
      | _ :: _ =>
          let! values :=
            traverse (fun m => minimax_plies plies' (push board m) (negb maximize))
                     (legal_moves board) in
          Return (if maximize then greatest values else least values)
      end
  end.

Definition minimax (depth : Z) (board : Board) (maximize : bool) : outcome Z :=
  minimax_plies (Z.to_nat depth) board maximize.

End Engine.

(** ** Well-formed moves

    What the chess library guarantees of a legal move: both squares are on
    the board, a piece of one of the six types stands on the from-square,
    and a promotion, when there is one, names a piece type. *)

Definition on_board (square : Z) : bool := (0 <=? square) && (square <? 64).

Definition is_piece_type (t : Z) : bool := (1 <=? t) && (t <=? 6).

Section WellFormed.
Context {Board Move : Type} {API : ChessAPI Board Move}.

Definition well_formed_move (board : Board) (m : Move) : bool :=
  on_board (from_square m)
  && on_board (to_square m)
  && match piece_type_at board (from_square m) with
     | Some t => is_piece_type t
     | None => false
     end
  && match promotion m with
     | Some p => is_piece_type p
     | None => true
     end.

Definition well_formed_position (board : Board) : bool :=
  forallb (well_formed_move board) (legal_moves board).

(** Every position within [plies] moves of [board] is well formed. *)
Fixpoint well_formed_to (plies : nat) (board : Board) : bool :=
  well_formed_position board
  && match plies with
     | O => true
     | S plies' =>
         forallb (fun m => well_formed_to plies' (push board m)) (legal_moves board)
     end.

(** The fields [_score_move] packs, most significant first. *)
Definition score_fields (board : Board) (m : Move) : outcome (Z * Z * Z * Z * Z * Z) :=
  let! exposure := _pawn_attacks board m in
  let! delta := _move_value board m in
  Return (or_zero (promotion m), int_of_bool (is_capture board m), exposure, delta,
          to_square m, from_square m).

(** An enemy pawn attacks [square]: [square] is in the set of squares
    attacked from a square on which a pawn of the side not to move stands. *)
Definition enemy_pawn_attacks (board : Board) (square : Z) : Prop :=
  exists p, 0 <= p < 64
            /\ Z.testbit (pieces board PAWN (negb (turn board))) p = true
            /\ Z.testbit (attacks board p) square = true.

End WellFormed.

(** Lexicographic order on the packed fields. *)
Definition lex_gt (x y : Z * Z * Z * Z * Z * Z) : Prop :=
  let '(a1, a2, a3, a4, a5, a6) := x in
  let '(b1, b2, b3, b4, b5, b6) := y in
  a1 > b1 \/ (a1 = b1 /\
  (a2 > b2 \/ (a2 = b2 /\
  (a3 > b3 \/ (a3 = b3 /\
  (a4 > b4 \/ (a4 = b4 /\
  (a5 > b5 \/ (a5 = b5 /\ a6 > b6))))))))).

(** ** Synthetic positions

    A finite game given as a tree: a position lists, for each of its legal
    moves, the position the move leads to.  Moves carry a label, as two move
    objects with the same squares are still two objects. *)

Record SMove : Type := {
  s_from : Z;
  s_to : Z;
  s_promotion : option Z;
  s_label : nat
}.

#[local] Set Warnings "-register-all".
Inductive SBoard : Type :=
| SPosition (side : bool)
            (occupant : Z -> option Z)
            (squares_of : Z -> bool -> Z)
            (attacked_from : Z -> Z)
            (captures : SMove -> bool)
            (replies : list (SMove * SBoard)).

Definition s_replies (b : SBoard) : list (SMove * SBoard) :=
  match b with SPosition _ _ _ _ _ r => r end.

Fixpoint s_find (label : nat) (r : list (SMove * SBoard)) (default : SBoard) : SBoard :=
  match r with
  | [] => default
  | (m, b) :: t => if Nat.eqb (s_label m) label then b else s_find label t default
  end.

#[export] Instance synthetic : ChessAPI SBoard SMove := {
  from_square := s_from;
  to_square := s_to;
  promotion := s_promotion;
  turn := fun b => match b with SPosition s _ _ _ _ _ => s end;
  legal_moves := fun b => map fst (s_replies b);
  piece_type_at := fun b => match b with SPosition _ o _ _ _ _ => o end;
  pieces := fun b => match b with SPosition _ _ p _ _ _ => p end;
  attacks := fun b => match b with SPosition _ _ _ a _ _ => a end;
  is_capture := fun b => match b with SPosition _ _ _ _ c _ => c end;
  push := fun b m => s_find (s_label m) (s_replies b) b
}.

(** The mask of a set of squares. *)
Definition squares (l : list Z) : Z := fold_right (fun s acc => Z.lor (Z.shiftl 1 s) acc) 0 l.

(** White: king e1, rook a1.  Black: king e8, pawn b6.  White to move, no
    castling rights.  Squares are numbered a1 = 0, b1 = 1, ..., h8 = 63.
    [rook_ending_attacked_from] gives, for each occupied square, the squares
    its piece attacks (a ray ends on the first occupied square, included),
    and the empty set for an empty square. *)
Definition rook_ending_occupant (square : Z) : option Z :=
  match square with
  | 0 => Some ROOK
  | 4 => Some KING
  | 41 => Some PAWN
  | 60 => Some KING
  | _ => None
  end.

Definition rook_ending_squares_of (piece_type : Z) (color : bool) : Z :=
  match piece_type, color with
  | 4, true => squares [0]
  | 6, true => squares [4]
  | 1, false => squares [41]
  | 6, false => squares [60]
  | _, _ => 0
  end.

Definition rook_ending_attacked_from (square : Z) : Z :=
  match square with
  | 0 => squares [8; 16; 24; 32; 40; 48; 56; 1; 2; 3; 4]
  | 4 => squares [3; 5; 11; 12; 13]
  | 41 => squares [32; 34]
  | 60 => squares [59; 61; 51; 52; 53]
  | _ => 0
  end.

Definition after_move (side : bool) : SBoard :=
  SPosition side (fun _ => None) (fun _ _ => 0) (fun _ => 0) (fun _ => false) [].

(** The rook move a1-a5. *)
Definition Ra1a5 : SMove :=
  {| s_from := 0; s_to := 32; s_promotion := None; s_label := 3 |}.

Definition rook_ending_moves : list SMove :=
  [ {| s_from := 0; s_to := 8; s_promotion := None; s_label := 0 |};
    {| s_from := 0; s_to := 16; s_promotion := None; s_label := 1 |};
    {| s_from := 0; s_to := 24; s_promotion := None; s_label := 2 |};
    Ra1a5;
    {| s_from := 0; s_to := 40; s_promotion := None; s_label := 4 |};
    {| s_from := 0; s_to := 48; s_promotion := None; s_label := 5 |};
    {| s_from := 0; s_to := 56; s_promotion := None; s_label := 6 |};
    {| s_from := 0; s_to := 1; s_promotion := None; s_label := 7 |};
    {| s_from := 0; s_to := 2; s_promotion := None; s_label := 8 |};
    {| s_from := 0; s_to := 3; s_promotion := None; s_label := 9 |};
    {| s_from := 4; s_to := 3; s_promotion := None; s_label := 10 |};
    {| s_from := 4; s_to := 5; s_promotion := None; s_label := 11 |};
    {| s_from := 4; s_to := 11; s_promotion := None; s_label := 12 |};
    {| s_from := 4; s_to := 12; s_promotion := None; s_label := 13 |};
    {| s_from := 4; s_to := 13; s_promotion := None; s_label := 14 |} ].

Definition rook_ending : SBoard :=
  SPosition WHITE rook_ending_occupant rook_ending_squares_of rook_ending_attacked_from
            (fun _ => false)
            (map (fun m => (m, after_move BLACK)) rook_ending_moves).

(** A position all of whose pieces are rooks (as far as the scorer asks),
    with no pawns, given by the side to move and the replies. *)
Definition rooks_only (side : bool) (replies : list (SMove * SBoard)) : SBoard :=
  SPosition side (fun _ => Some ROOK) (fun _ _ => 0) (fun _ => 0) (fun _ => false) replies.

Definition smove (from to : Z) (label : nat) : SMove :=
  {| s_from := from; s_to := to; s_promotion := None; s_label := label |}.

(** Two moves with the same squares, hence the same score, in a fixed
    enumeration order. *)
Definition tie_first : SMove := smove 0 8 0.
Definition tie_second : SMove := smove 0 8 1.
Definition tied_position : SBoard :=
  rooks_only WHITE [ (tie_first, rooks_only BLACK []); (tie_second, rooks_only BLACK []) ].

(** A position without legal moves. *)
Definition no_moves : SBoard := rooks_only WHITE [].

(** A position with a single legal move. *)
Definition one_move : SBoard := rooks_only WHITE [ (smove 0 8 0, rooks_only BLACK []) ].

(** A two-ply game: three first moves, with two, no and two replies. *)
Definition leaf_a : SBoard := rooks_only WHITE [ (smove 0 8 0, no_moves); (smove 0 16 1, no_moves) ].
Definition leaf_b : SBoard := rooks_only WHITE [ (smove 7 15 0, no_moves) ].
Definition leaf_c : SBoard := rooks_only WHITE [ (smove 0 1 0, no_moves) ].
Definition leaf_d : SBoard := rooks_only WHITE [ (smove 0 56 0, no_moves); (smove 7 6 1, no_moves) ].
Definition small_game : SBoard :=
  rooks_only WHITE
    [ (smove 0 8 0, rooks_only BLACK [ (smove 56 48 0, leaf_a); (smove 56 57 1, leaf_b) ]);
      (smove 0 16 1, rooks_only BLACK []);
      (smove 0 24 2, rooks_only BLACK [ (smove 63 62 0, leaf_c); (smove 63 55 1, leaf_d) ]) ].

(** A pawn on the seventh rank with a quiet promotion to a queen and a
    capturing promotion to a knight. *)
Definition queen_promotion : SMove :=
  {| s_from := 52; s_to := 60; s_promotion := Some QUEEN; s_label := 0 |}.
Definition knight_promotion : SMove :=
  {| s_from := 52; s_to := 61; s_promotion := Some KNIGHT; s_label := 1 |}.
Definition promotion_position : SBoard :=
  SPosition WHITE (fun _ => Some PAWN) (fun _ _ => 0) (fun _ => 0)
            (fun m => Nat.eqb (s_label m) 1)
            [ (queen_promotion, after_move BLACK); (knight_promotion, after_move BLACK) ].

(** Two consecutive searches from the initial state. *)
Definition after_first_search : EngineState SMove :=
  snd (search {| RANDOM := false; MAX_DEPTH := 2 |} 0 small_game false (initial_state SMove)).
Definition after_second_search : EngineState SMove :=
  snd (search {| RANDOM := false; MAX_DEPTH := 1 |} 0 one_move false after_first_search).

(** ** Notions used in the statements *)

(** The squares of the board. *)
Definition all_squares : list Z := map Z.of_nat (seq 0 64).

(** The table value read for a colour, a piece type and a square exists and
    lies between -50 and 50. *)
Definition piece_value_bounded (color : bool) (t s : Z) : bool :=
  match _piece_value color (Some t) s with
  | Return v => (-50 <=? v) && (v <=? 50)
  | Raise _ => false
  end.

(** The packed score as a sum of weighted fields. *)
Definition packed (f : Z * Z * Z * Z * Z * Z) : Z :=
  let '(p, c, e, d, t, s) := f in
  p * 67108864 + c * 33554432 + e * 4194304 + (512 + d * 4096) + t * 64 + s.

(** The ranges of the fields of a well-formed move. *)
Definition fields_in_range (f : Z * Z * Z * Z * Z * Z) : Prop :=
  let '(p, c, e, d, t, s) := f in
  0 <= p <= 6 /\ 0 <= c <= 1 /\ -1 <= e <= 6 /\ -100 <= d <= 100
  /\ 0 <= t < 64 /\ 0 <= s < 64.

(** The value of a computation that returns. *)
Definition value_of (x : outcome Z) : Z :=
  match x with
  | Return v => v
  | Raise _ => 0
  end.

(** A list with the key of each element. *)
Definition decorate {A : Type} (g : A -> Z) (l : list A) : list (Z * A) :=
  map (fun a => (g a, a)) l.

(** The sort the specification describes: a stable ascending sort read in
    reverse. *)
Definition ascending_read_in_reverse {A : Type} (keyed : list (Z * A)) : list A :=
  map snd (rev (stable_sort keyed)).

(** A computation keeps the counter in step with the pushes when, however
    it ends, the counter has grown by the number of [board.push] calls made
    and nothing was printed. *)
Definition in_step {Move A : Type} (c : Py Move A) : Prop :=
  forall st r st', c st = (r, st') ->
    move_counter st' - move_counter st
    = pushes (board_calls st') - pushes (board_calls st)
    /\ stdout st' = stdout st.

(** What a search with window [(alpha, beta)] may return for a node of
    minimax value [m]: a value at or below [alpha] bounds [m] from above, a
    value strictly inside the window is [m], and a value above [alpha] and at
    or above [beta] bounds [m] from below. *)
Definition window_spec (alpha beta m v : Z) : Prop :=
  (v <= alpha -> m <= v)
  /\ (alpha < v < beta -> m = v)
  /\ (alpha < v -> beta <= v -> v <= m).

(** The recursive calls on the moves of a list return, within any window,
    a value that meets [window_spec] for the move's value [cm]. *)
Definition child_sound {Move : Type} (child : Move -> Z -> Z -> Py Move Z) (cm : Move -> Z)
    (moves : list Move) : Prop :=
  forall m, In m moves ->
  forall a b st, NEG_INF <= a -> a <= b -> b <= INF ->
    exists s st', child m a b st = (Return s, st') /\ window_spec a b (cm m) s.

(** ** The example engines [RandomMove], [Alphabetical] and [FirstMove] *)

(** The names of a move: [board.san(move)] and [str(move)], its UCI form. *)
Class MoveNames (Board Move : Type) : Type := {
  san : Board -> Move -> String.string;
  str : Move -> String.string
}.

(** A stable ascending sort of elements decorated with a string key; strings
    compare lexicographically, character by character. *)
Fixpoint insert_named {A : Type} (x : String.string * A) (l : list (String.string * A))
  : list (String.string * A) :=
  match l with
  | [] => [x]
  | y :: t => if String.leb (fst x) (fst y) then x :: y :: t else y :: insert_named x t
  end.

Fixpoint sort_named {A : Type} (l : list (String.string * A)) : list (String.string * A) :=
  match l with
  | [] => []
  | x :: t => insert_named x (sort_named t)
  end.

(** The list after [l.sort(key=key)]. *)
Definition sort_by_name {A : Type} (key : A -> String.string) (l : list A) : list A :=
  map snd (sort_named (combine (map key l) l)).

Section ExampleEngines.
Context {Board Move : Type} {API : ChessAPI Board Move} {Names : MoveNames Board Move}.

(** [RandomMove.search]; [PlayResult(move, None)] has no draw offer. *)
Definition RandomMove_search (rnd : nat) (board : Board) : outcome (PlayResult Move) :=
  let! m := random_choice rnd (legal_moves board) in
  Return {| move := Some m; ponder := None; draw_offered := false |}.

(** [Alphabetical.search] *)
Definition Alphabetical_search (board : Board) : outcome (PlayResult Move) :=
  let moves := sort_by_name (san board) (legal_moves board) in
  let! m := py_index moves 0 in
  Return {| move := Some m; ponder := None; draw_offered := false |}.

(** [FirstMove.search] *)
Definition FirstMove_search (board : Board) : outcome (PlayResult Move) :=
  let moves := sort_by_name str (legal_moves board) in
  let! m := py_index moves 0 in
  Return {| move := Some m; ponder := None; draw_offered := false |}.

End ExampleEngines.

(** Names for the synthetic moves: the UCI form is the two square names and
    the letter of the promotion piece; the SAN of a rook move is taken to be
    the letter R and the destination square. *)
Module SyntheticNames.
Import String Ascii.

Definition square_name (square : Z) : string :=
  String (ascii_of_nat (97 + Z.to_nat (square mod 8)))
         (String (ascii_of_nat (49 + Z.to_nat (square / 8))) EmptyString).

Definition promotion_letter (p : option Z) : string :=
  match p with
  | Some 1 => "p"
  | Some 2 => "n"
  | Some 3 => "b"
  | Some 4 => "r"
  | Some 5 => "q"
  | Some 6 => "k"
  | _ => ""
  end.

Definition s_uci (m : SMove) : string :=
  square_name (s_from m) ++ square_name (s_to m) ++ promotion_letter (s_promotion m).

Definition s_san (b : SBoard) (m : SMove) : string :=
  "R" ++ square_name (s_to m).

End SyntheticNames.

#[export] Instance synthetic_names : MoveNames SBoard SMove := {
  san := SyntheticNames.s_san;
  str := SyntheticNames.s_uci
}.

(** ** Further notions: indices, board discipline, tree size *)

(** The indices a 64-entry list accepts: [-64 .. 63]. *)
Definition all_indices : list Z := map (fun n => Z.of_nat n - 64) (seq 0 128).

(** The table value read for a colour, a piece type and an index in
    [-64 .. 63] exists and lies between -50 and 50. *)
Definition piece_value_indexed (color : bool) (t s : Z) : bool :=
  match _piece_value color (Some t) s with
  | Return v => (-50 <=? v) && (v <=? 50)
  | Raise _ => false
  end.

(** Reading the calls from the latest to the earliest, with [pending] pops
    still to be matched: every push is matched by a later pop and no pop is
    left without its push. *)
Fixpoint balanced_from {Move : Type} (calls : list (board_call Move)) (pending : nat) : bool :=
  match calls with
  | [] => Nat.eqb pending 0
  | CallPop :: t => balanced_from t (S pending)
  | CallPush _ :: t =>
      match pending with
      | O => false
      | S p => balanced_from t p
      end
  end.

Definition balanced {Move : Type} (calls : list (board_call Move)) : bool :=
  balanced_from calls 0.

(** A run of calls that, put before any earlier calls, changes nothing to
    their balance. *)
Definition neutral {Move : Type} (trace : list (board_call Move)) : Prop :=
  forall rest pending, balanced_from (trace ++ rest) pending = balanced_from rest pending.

(** A computation that, when it returns, has made a neutral run of calls on
    the board. *)
Definition keeps_board {Move A : Type} (c : Py Move A) : Prop :=
  forall st a st', c st = (Return a, st') ->
    exists trace, board_calls st' = trace ++ board_calls st /\ neutral trace.

(** A computation that makes between 0 and [n] pushes, however it ends. *)
Definition pushes_at_most {Move A : Type} (n : Z) (c : Py Move A) : Prop :=
  forall st r st', c st = (r, st') ->
    0 <= pushes (board_calls st') - pushes (board_calls st) <= n.

(** The number of moves in the game tree of a position down to [plies]. *)
Fixpoint tree_size {Board Move : Type} {API : ChessAPI Board Move}
    (plies : nat) (board : Board) : Z :=
  match plies with
  | O => 0
  | S plies' =>
      fold_right (fun m acc => 1 + tree_size plies' (push board m) + acc) 0
                 (legal_moves board)
  end.

(** * Properties *)

(** ** Squares and tables *)

Lemma in_all_squares (s : Z) : 0 <= s < 64 -> In s all_squares.
Proof.
  intros Hs. unfold all_squares. apply in_map_iff.
  exists (Z.to_nat s). split; [lia|]. apply in_seq. lia.
Qed.

Lemma for_all_squares (P : Z -> bool) :
  forallb P all_squares = true -> forall s, 0 <= s < 64 -> P s = true.
Proof.
  intros Hall s Hs. rewrite forallb_forall in Hall.
  apply Hall, in_all_squares, Hs.
Qed.

Lemma on_board_range (s : Z) : on_board s = true <-> 0 <= s < 64.
Proof. unfold on_board. rewrite andb_true_iff. lia. Qed.

Lemma is_piece_type_range (t : Z) : is_piece_type t = true <-> 1 <= t <= 6.
Proof. unfold is_piece_type. rewrite andb_true_iff. lia. Qed.

Lemma piece_type_cases (t : Z) :
  1 <= t <= 6 -> t = 1 \/ t = 2 \/ t = 3 \/ t = 4 \/ t = 5 \/ t = 6.
Proof. lia. Qed.

(** XOR with 56 flips the rank of a square and keeps its file. *)
Lemma square_mirror_on_board (s : Z) :
  0 <= s < 64 -> square_mirror s = 8 * (7 - s / 8) + s mod 8.
Proof.
  intros Hs.
  apply Z.eqb_eq.
  apply (for_all_squares (fun s => square_mirror s =? 8 * (7 - s / 8) + s mod 8));
    [vm_compute; reflexivity | exact Hs].
Qed.

Lemma square_mirror_rank_file (rank file : Z) :
  0 <= rank < 8 -> 0 <= file < 8 ->
  square_mirror (8 * rank + file) = 8 * (7 - rank) + file.
Proof.
  intros Hr Hf. rewrite square_mirror_on_board by lia.
  replace (8 * rank + file) with (file + rank * 8) by lia.
  rewrite Z.div_add, Z.mod_add by lia.
  rewrite Z.div_small, Z.mod_small by lia. lia.
Qed.

(** A value of the table of a piece type, read for either colour at a square
    of the board, exists and lies between -50 and 50. *)
Lemma piece_value_returns (color : bool) (t s : Z) :
  1 <= t <= 6 -> 0 <= s < 64 ->
  exists v, _piece_value color (Some t) s = Return v /\ -50 <= v <= 50.
Proof.
  intros Ht Hs.
  assert (Hb : piece_value_bounded color t s = true).
  { apply (for_all_squares (piece_value_bounded color t)); [|exact Hs].
    destruct color;
      destruct (piece_type_cases t Ht) as [->|[->|[->|[->|[->| ->]]]]];
      vm_compute; reflexivity. }
  unfold piece_value_bounded in Hb.
  destruct (_piece_value color (Some t) s) as [v|e]; [|discriminate].
  exists v. split; [reflexivity|].
  apply andb_true_iff in Hb. lia.
Qed.

(** ** C8: the piece-square evaluator *)

(** C8.  For every piece type [t] and square [s], [_piece_value] for White is
    the table entry [PSQT[t][mirror s]] and for Black the entry [PSQT[t][s]];
    [square_mirror] is the vertical mirroring: it sends the square of rank
    [rank] and file [file] to the square of rank [7 - rank] and the same
    file. *)
Theorem piece_value_is_table_entry :
  (forall (t : option Z) (s : Z),
      _piece_value WHITE t s = PSQT_at t (square_mirror s)
      /\ _piece_value BLACK t s = PSQT_at t s)
  /\ (forall rank file : Z,
         0 <= rank < 8 -> 0 <= file < 8 ->
         square_mirror (8 * rank + file) = 8 * (7 - rank) + file).
Proof.
  split.
  - intros t s. split; reflexivity.
  - exact square_mirror_rank_file.
Qed.

Lemma piece_value_is_table_entry_witness :
  _piece_value WHITE (Some PAWN) 12 = Return (-31)
  /\ _piece_value BLACK (Some PAWN) 12 = Return 50
  /\ square_mirror (8 * 1 + 4) = 8 * (7 - 1) + 4.
Proof.
  destruct piece_value_is_table_entry as [Hvalue Hmirror].
  destruct (Hvalue (Some PAWN) 12) as [Hwhite Hblack].
  split; [|split].
  - rewrite Hwhite. reflexivity.
  - rewrite Hblack. reflexivity.
  - apply Hmirror; lia.
Defined.

(** ** The move scorer *)

Lemma NEG_INF_value : NEG_INF = -100000000000000000000000000000000.
Proof. reflexivity. Qed.

Lemma INF_value : INF = 100000000000000000000000000000000.
Proof. reflexivity. Qed.

Section ScorerFacts.
Context {Board Move : Type} {API : ChessAPI Board Move}.

Lemma well_formed_move_inv (board : Board) (m : Move) :
  well_formed_move board m = true ->
  0 <= from_square m < 64
  /\ 0 <= to_square m < 64
  /\ (exists t, piece_type_at board (from_square m) = Some t /\ 1 <= t <= 6)
  /\ 0 <= or_zero (promotion m) <= 6.
Proof.
  unfold well_formed_move. rewrite !andb_true_iff.
  intros [[[Hfrom Hto] Hpiece] Hprom].
  apply on_board_range in Hfrom. apply on_board_range in Hto.
  repeat split; try lia.
  - destruct (piece_type_at board (from_square m)) as [t|]; [|discriminate].
    exists t. split; [reflexivity|]. apply is_piece_type_range, Hpiece.
  - destruct (promotion m) as [p|]; simpl; [apply is_piece_type_range in Hprom|]; lia.
  - destruct (promotion m) as [p|]; simpl; [apply is_piece_type_range in Hprom|]; lia.
Qed.

Lemma well_formed_position_In (board : Board) (m : Move) :
  well_formed_position board = true -> In m (legal_moves board) ->
  well_formed_move board m = true.
Proof.
  unfold well_formed_position. rewrite forallb_forall. intros H Hin. apply H, Hin.
Qed.

(** The positional delta of a well-formed move exists and is within the
    bounds the tables give it. *)
Lemma move_value_returns (board : Board) (m : Move) :
  well_formed_move board m = true ->
  exists delta, _move_value board m = Return delta /\ -100 <= delta <= 100.
Proof.
  intros Hwf.
  destruct (well_formed_move_inv board m Hwf) as (Hfrom & Hto & (t & Ht & Hrange) & _).
  unfold _move_value. rewrite Ht.
  destruct (piece_value_returns (turn board) t (to_square m) Hrange Hto) as (v1 & -> & H1).
  destruct (piece_value_returns (turn board) t (from_square m) Hrange Hfrom) as (v2 & -> & H2).
  simpl. exists (v1 - v2). split; [reflexivity|lia].
Qed.

(** What [_pawn_attacks] computes: 6 when no pawn of the side not to move
    stands on a square attacked from the destination square, else 5 minus
    the type of the moving piece. *)
Lemma pawn_attacks_as_coded (board : Board) (m : Move) (t : Z) :
  piece_type_at board (from_square m) = Some t ->
  _pawn_attacks board m =
  Return (if Z.land (pieces board PAWN (negb (turn board)))
                    (attacks board (to_square m)) =? 0
          then 6 else 5 - t).
Proof.
  intros Ht. unfold _pawn_attacks. rewrite Ht.
  destruct (Z.land _ _ =? 0); reflexivity.
Qed.

Lemma pawn_attacks_returns (board : Board) (m : Move) :
  well_formed_move board m = true ->
  exists exposure, _pawn_attacks board m = Return exposure /\ -1 <= exposure <= 6.
Proof.
  intros Hwf.
  destruct (well_formed_move_inv board m Hwf) as (_ & _ & (t & Ht & Hrange) & _).
  rewrite (pawn_attacks_as_coded board m t Ht).
  eexists. split; [reflexivity|].
  destruct (Z.land _ _ =? 0); lia.
Qed.

Lemma score_move_packed (board : Board) (m : Move) :
  well_formed_move board m = true ->
  exists f, score_fields board m = Return f
            /\ fields_in_range f
            /\ _score_move board m = Return (packed f).
Proof.
  intros Hwf.
  destruct (well_formed_move_inv board m Hwf) as (Hfrom & Hto & _ & Hprom).
  destruct (pawn_attacks_returns board m Hwf) as (e & He & Hebound).
  destruct (move_value_returns board m Hwf) as (d & Hd & Hdbound).
  unfold score_fields, _score_move. rewrite He, Hd. cbn [obind].
  eexists. split; [reflexivity|]. split.
  - unfold fields_in_range. repeat split; try lia;
      destruct (is_capture board m); simpl; lia.
  - unfold packed. rewrite !Z.shiftl_mul_pow2 by lia.
    f_equal.
Qed.

(** On fields in range, the packed integers are ordered as the field
    tuples are ordered lexicographically. *)
Lemma packed_order (f g : Z * Z * Z * Z * Z * Z) :
  fields_in_range f -> fields_in_range g ->
  (packed f > packed g <-> lex_gt f g).
Proof.
  destruct f as [[[[[p1 c1] e1] d1] t1] s1].
  destruct g as [[[[[p2 c2] e2] d2] t2] s2].
  unfold fields_in_range, packed, lex_gt. lia.
Qed.

Lemma score_move_bounds (board : Board) (m : Move) :
  well_formed_move board m = true ->
  exists s, _score_move board m = Return s /\ -536870912 < s < 536870912.
Proof.
  intros Hwf.
  destruct (score_move_packed board m Hwf) as (f & _ & Hrange & Hs).
  exists (packed f). split; [exact Hs|].
  destruct f as [[[[[p c] e] d] t] s].
  unfold fields_in_range in Hrange. unfold packed. lia.
Qed.

End ScorerFacts.

(** ** C2: the packed score orders moves lexicographically *)

(** C2.  For two legal moves [a] and [b] of a well-formed position, both
    scores exist, and [_score_move a > _score_move b] exactly when the tuple
    (promotion, capture flag, pawn-exposure tier, positional delta,
    destination square, source square) of [a] is lexicographically greater
    than that of [b]; in particular a move with a greater promotion value
    outranks the other whatever the remaining fields are. *)
Theorem score_move_lexicographic
    {Board Move : Type} {API : ChessAPI Board Move}
    (board : Board) (a b : Move) :
  well_formed_position board = true ->
  In a (legal_moves board) -> In b (legal_moves board) ->
  exists sa sb fa fb,
    _score_move board a = Return sa
    /\ _score_move board b = Return sb
    /\ score_fields board a = Return fa
    /\ score_fields board b = Return fb
    /\ (sa > sb <-> lex_gt fa fb)
    /\ (or_zero (promotion a) > or_zero (promotion b) -> sa > sb).
Proof.
  intros Hpos Ha Hb.
  pose proof (well_formed_position_In board a Hpos Ha) as Hwa.
  pose proof (well_formed_position_In board b Hpos Hb) as Hwb.
  destruct (score_move_packed board a Hwa) as (fa & Hfa & Hra & Hsa).
  destruct (score_move_packed board b Hwb) as (fb & Hfb & Hrb & Hsb).
  exists (packed fa), (packed fb), fa, fb.
  repeat split; try assumption.
  - apply packed_order; assumption.
  - apply packed_order; assumption.
  - intros Hprom. apply packed_order; try assumption.
    unfold score_fields in Hfa, Hfb.
    destruct (_pawn_attacks board a); [|discriminate].
    destruct (_move_value board a); [|discriminate].
    destruct (_pawn_attacks board b); [|discriminate].
    destruct (_move_value board b); [|discriminate].
    simpl in Hfa, Hfb. injection Hfa as <-. injection Hfb as <-.
    unfold lex_gt. left. exact Hprom.
Qed.

Lemma score_move_lexicographic_witness :
  exists sa sb fa fb,
    _score_move promotion_position queen_promotion = Return sa
    /\ _score_move promotion_position knight_promotion = Return sb
    /\ score_fields promotion_position queen_promotion = Return fa
    /\ score_fields promotion_position knight_promotion = Return fb
    /\ (sa > sb <-> lex_gt fa fb)
    /\ (or_zero (promotion queen_promotion) > or_zero (promotion knight_promotion) -> sa > sb).
Proof.
  apply (score_move_lexicographic promotion_position queen_promotion knight_promotion).
  - reflexivity.
  - simpl. left. reflexivity.
  - simpl. right. left. reflexivity.
Defined.

(** ** C4: the pawn-exposure tier *)

(** C4, the code at the rook ending.  The move Ra1-a5 is legal, the black
    pawn on b6 attacks its destination square a5 and the moving piece is a
    rook, yet the tier [_pawn_attacks] computes is 6, not [5 - 4]: the code
    asks which squares are attacked from a5, an empty square, and not which
    pawns attack a5. *)
Theorem pawn_exposure_at_rook_ending :
  In Ra1a5 (legal_moves rook_ending)
  /\ enemy_pawn_attacks rook_ending (to_square Ra1a5)
  /\ piece_type_at rook_ending (from_square Ra1a5) = Some ROOK
  /\ _pawn_attacks rook_ending Ra1a5 = Return 6.
Proof.
  split; [|split; [|split]].
  - simpl. right. right. right. left. reflexivity.
  - exists 41. split; [lia|]. split; reflexivity.
  - reflexivity.
  - reflexivity.
Qed.

(** ** C5: the position scorer *)

Lemma fold_max_spec (l : list Z) (x : Z) :
  In (fold_left Z.max l x) (x :: l)
  /\ forall y, In y (x :: l) -> y <= fold_left Z.max l x.
Proof.
  revert x. induction l as [|z l IH]; intros x; simpl.
  - split; [left; reflexivity|]. intros y [<-|[]]. lia.
  - destruct (IH (Z.max x z)) as [Hin Hle]. simpl in Hin. split.
    + destruct Hin as [Hin|Hin]; [|right; right; exact Hin].
      rewrite <- Hin. destruct (Z.max_spec x z) as [[_ ->]|[_ ->]]; auto.
    + intros y Hy.
      assert (Hx : Z.max x z <= fold_left Z.max l (Z.max x z)) by (apply Hle; left; reflexivity).
      destruct Hy as [<-|[<-|Hy]]; [lia|lia|]. apply Hle. right. exact Hy.
Qed.

Lemma fold_min_spec (l : list Z) (x : Z) :
  In (fold_left Z.min l x) (x :: l)
  /\ forall y, In y (x :: l) -> fold_left Z.min l x <= y.
Proof.
  revert x. induction l as [|z l IH]; intros x; simpl.
  - split; [left; reflexivity|]. intros y [<-|[]]. lia.
  - destruct (IH (Z.min x z)) as [Hin Hle]. simpl in Hin. split.
    + destruct Hin as [Hin|Hin]; [|right; right; exact Hin].
      rewrite <- Hin. destruct (Z.min_spec x z) as [[_ ->]|[_ ->]]; auto.
    + intros y Hy.
      assert (Hx : fold_left Z.min l (Z.min x z) <= Z.min x z) by (apply Hle; left; reflexivity).
      destruct Hy as [<-|[<-|Hy]]; [lia|lia|]. apply Hle. right. exact Hy.
Qed.

(** When [f] returns on every element, so does [traverse f], with the list
    of the values. *)
Lemma traverse_map {A B : Type} (f : A -> outcome B) (g : A -> B) (l : list A) :
  (forall x, In x l -> f x = Return (g x)) ->
  traverse f l = Return (map g l).
Proof.
  induction l as [|x l IH]; intros H; simpl; [reflexivity|].
  rewrite (H x) by (left; reflexivity). simpl.
  rewrite IH by (intros y Hy; apply H; right; exact Hy). reflexivity.
Qed.

Section PositionScorer.
Context {Board Move : Type} {API : ChessAPI Board Move}.

Lemma score_board_scores (board : Board) :
  well_formed_position board = true ->
  _score_board board =
  Return (py_max_default (map (fun m => value_of (_score_move board m)) (legal_moves board))
                         NEG_INF).
Proof.
  intros Hpos. unfold _score_board.
  rewrite (traverse_map _ (fun m => value_of (_score_move board m))); [reflexivity|].
  intros m Hm.
  destruct (score_move_bounds board m (well_formed_position_In board m Hpos Hm))
    as (s & -> & _).
  reflexivity.
Qed.

Lemma score_board_is_greatest (board : Board) :
  well_formed_position board = true -> legal_moves board <> [] ->
  exists v, _score_board board = Return v
            /\ (exists m, In m (legal_moves board) /\ _score_move board m = Return v)
            /\ (forall m, In m (legal_moves board) ->
                          exists s, _score_move board m = Return s /\ s <= v).
Proof.
  intros Hpos Hne. rewrite (score_board_scores board Hpos).
  assert (Hscore : forall m, In m (legal_moves board) ->
            _score_move board m = Return (value_of (_score_move board m))).
  { intros m Hm.
    destruct (score_move_bounds board m (well_formed_position_In board m Hpos Hm))
      as (s & -> & _). reflexivity. }
  destruct (legal_moves board) as [|m0 ms] eqn:Hmoves; [congruence|].
  eexists. split; [reflexivity|].
  simpl map. unfold py_max_default.
  set (g := fun m => value_of (_score_move board m)) in *.
  destruct (fold_max_spec (map g ms) (g m0)) as [Hin Hle].
  change (g m0 :: map g ms) with (map g (m0 :: ms)) in Hin, Hle.
  split.
  - apply in_map_iff in Hin. destruct Hin as (m & Hgm & Hm).
    exists m. split; [exact Hm|]. rewrite (Hscore m Hm). f_equal. exact Hgm.
  - intros m Hm. exists (g m). split; [apply Hscore, Hm|].
    apply Hle. apply in_map. exact Hm.
Qed.

Lemma score_board_bounds (board : Board) :
  well_formed_position board = true ->
  exists v, _score_board board = Return v /\ NEG_INF <= v < INF.
Proof.
  intros Hpos.
  destruct (legal_moves board) as [|m0 ms] eqn:Hmoves.
  - exists NEG_INF. unfold _score_board. rewrite Hmoves. simpl.
    split; [reflexivity|]. rewrite NEG_INF_value, INF_value. lia.
  - destruct (score_board_is_greatest board Hpos) as (v & Hv & (m & Hm & Hs) & _);
      [congruence|].
    exists v. split; [exact Hv|].
    destruct (score_move_bounds board m (well_formed_position_In board m Hpos Hm))
      as (s & Hs' & Hbound).
    rewrite Hs in Hs'. injection Hs' as <-.
    rewrite NEG_INF_value, INF_value. lia.
Qed.

End PositionScorer.

(** C5.  [_score_board] returns the negative sentinel on a position without
    legal moves; on a well-formed position with legal moves it returns the
    greatest [_score_move] value of the legal moves; and the score of a
    well-formed move is never one of the two sentinels. *)
Theorem score_board_spec {Board Move : Type} {API : ChessAPI Board Move} (board : Board) :
  (legal_moves board = [] -> _score_board board = Return NEG_INF)
  /\ (well_formed_position board = true -> legal_moves board <> [] ->
      exists v, _score_board board = Return v
                /\ (exists m, In m (legal_moves board) /\ _score_move board m = Return v)
                /\ (forall m, In m (legal_moves board) ->
                              exists s, _score_move board m = Return s /\ s <= v))
  /\ (forall m, well_formed_move board m = true ->
                exists s, _score_move board m = Return s /\ s <> INF /\ s <> NEG_INF).
Proof.
  split; [|split].
  - intros Hnone. unfold _score_board. rewrite Hnone. reflexivity.
  - apply score_board_is_greatest.
  - intros m Hwf. destruct (score_move_bounds board m Hwf) as (s & Hs & Hbound).
    exists s. split; [exact Hs|].
    rewrite NEG_INF_value, INF_value. lia.
Qed.

Lemma score_board_spec_witness :
  _score_board no_moves = Return NEG_INF
  /\ (exists v, _score_board leaf_d = Return v
                /\ (exists m, In m (legal_moves leaf_d) /\ _score_move leaf_d m = Return v)
                /\ (forall m, In m (legal_moves leaf_d) ->
                              exists s, _score_move leaf_d m = Return s /\ s <= v))
  /\ (exists s, _score_move leaf_d (smove 0 56 0) = Return s /\ s <> INF /\ s <> NEG_INF).
Proof.
  split; [|split].
  - apply (score_board_spec no_moves). reflexivity.
  - apply (score_board_spec leaf_d); [reflexivity|]. simpl. discriminate.
  - apply (score_board_spec leaf_d). reflexivity.
Defined.

(** ** The recursive search: unfolding, terminal and no-move rules *)

Section SearchRules.
Context {Board Move : Type} {API : ChessAPI Board Move}.
Open Scope py_scope.

(** [_recur] satisfies the equation of the source: the terminal rule when
    [depth <= 0], else the interior rule with recursive calls at
    [depth - 1]. *)
Lemma _recur_unfold (depth : Z) (board : Board) (maximize : bool) (alpha beta : Z) :
  _recur depth board maximize alpha beta =
  if depth <=? 0 then v <- lift (terminal_value board) ;; ret (None, v)
  else
    let child := fun m a b =>
      r <- _recur (depth - 1) (push board m) (negb maximize) a b ;; ret (snd r) in
    match legal_moves board with
    | [] => ret (None, NEG_INF)
    | first :: _ =>
        r <- (if maximize
              then max_loop child (legal_moves board) first NEG_INF alpha beta
              else min_loop child (legal_moves board) first INF alpha beta) ;;
        ret (Some (fst r), snd r)
    end.
Proof.
  unfold _recur. destruct (depth <=? 0) eqn:Hd.
  - apply Z.leb_le in Hd. replace (Z.to_nat depth) with O by lia. reflexivity.
  - apply Z.leb_gt in Hd.
    replace (Z.to_nat depth) with (S (Z.to_nat (depth - 1))) by lia.
    reflexivity.
Qed.

Lemma terminal_value_returns (board : Board) :
  well_formed_position board = true ->
  exists v, terminal_value board = Return v /\ NEG_INF <= v < INF.
Proof.
  intros Hpos. unfold terminal_value.
  destruct (Z.of_nat (length (legal_moves board)) =? 0).
  - exists NEG_INF. split; [reflexivity|]. rewrite NEG_INF_value, INF_value. lia.
  - apply score_board_bounds, Hpos.
Qed.

Lemma recur_terminal (depth : Z) (board : Board) (maximize : bool) (alpha beta : Z)
    (st : EngineState Move) :
  depth <= 0 -> well_formed_position board = true ->
  exists v, _recur depth board maximize alpha beta st = (Return (None, v), st)
            /\ terminal_value board = Return v.
Proof.
  intros Hd Hpos. rewrite _recur_unfold.
  apply Z.leb_le in Hd. rewrite Hd.
  destruct (terminal_value_returns board Hpos) as (v & Hv & _).
  exists v. split; [|exact Hv].
  unfold bind, lift, ret. rewrite Hv. reflexivity.
Qed.

Lemma recur_no_moves (depth : Z) (board : Board) (maximize : bool) (alpha beta : Z)
    (st : EngineState Move) :
  1 <= depth -> legal_moves board = [] ->
  _recur depth board maximize alpha beta st = (Return (None, NEG_INF), st).
Proof.
  intros Hd Hnone. rewrite _recur_unfold.
  replace (depth <=? 0) with false by (symmetry; apply Z.leb_gt; lia).
  cbv zeta. rewrite Hnone. reflexivity.
Qed.

End SearchRules.

(** ** C6: an interior node without legal moves *)

(** C6.  At depth at least 1, on a position without legal moves, [_recur]
    returns no move and the negative sentinel, whether the node maximizes or
    minimizes and whatever the window; the engine state is unchanged. *)
Theorem interior_node_without_moves
    {Board Move : Type} {API : ChessAPI Board Move}
    (depth : Z) (board : Board) (maximize : bool) (alpha beta : Z) (st : EngineState Move) :
  1 <= depth -> legal_moves board = [] ->
  _recur depth board maximize alpha beta st = (Return (None, NEG_INF), st).
Proof. exact (recur_no_moves depth board maximize alpha beta st). Qed.

Lemma interior_node_without_moves_witness :
  _recur 2 no_moves true NEG_INF INF (initial_state SMove)
  = (Return (None, NEG_INF), initial_state SMove)
  /\ _recur 2 no_moves false NEG_INF INF (initial_state SMove)
     = (Return (None, NEG_INF), initial_state SMove).
Proof.
  split.
  - apply (interior_node_without_moves 2 no_moves true); [lia|reflexivity].
  - apply (interior_node_without_moves 2 no_moves false); [lia|reflexivity].
Defined.

(** ** C10: full search with a depth that is not positive *)

(** C10.  In full-search mode ([RANDOM] off and [MAX_DEPTH] other than -1,
    the value that selects the single-ply mode) with [MAX_DEPTH <= 0], on any
    well-formed position, with legal moves or without, [_ab_search] returns
    no move and [search] returns a result whose move is absent. *)
Theorem full_search_nonpositive_depth
    {Board Move : Type} {API : ChessAPI Board Move}
    (cfg : Config) (rnd : nat) (board : Board) (offered : bool) (st : EngineState Move) :
  RANDOM cfg = false -> MAX_DEPTH cfg <> -1 -> MAX_DEPTH cfg <= 0 ->
  well_formed_position board = true ->
  _ab_search board (MAX_DEPTH cfg) st = (Return None, st)
  /\ search cfg rnd board offered st
     = (Return {| move := None; ponder := None; draw_offered := offered |},
        {| move_counter := 0;
           board_calls := board_calls st;
           stdout := move_counter st :: stdout st |}).
Proof.
  intros Hrandom Hmode Hdepth Hpos.
  assert (Hab : _ab_search board (MAX_DEPTH cfg) st = (Return None, st)).
  { unfold _ab_search, bind.
    destruct (recur_terminal (MAX_DEPTH cfg) board true NEG_INF INF st Hdepth Hpos)
      as (v & -> & _). reflexivity. }
  split; [exact Hab|].
  unfold search. rewrite Hrandom.
  replace (MAX_DEPTH cfg =? -1) with false by (symmetry; apply Z.eqb_neq; exact Hmode).
  unfold bind at 1. rewrite Hab. reflexivity.
Qed.

Lemma full_search_nonpositive_depth_witness :
  _ab_search small_game 0 (initial_state SMove) = (Return None, initial_state SMove)
  /\ search {| RANDOM := false; MAX_DEPTH := 0 |} 0 small_game false (initial_state SMove)
     = (Return {| move := None; ponder := None; draw_offered := false |},
        {| move_counter := 0; board_calls := []; stdout := [0] |}).
Proof.
  apply (full_search_nonpositive_depth {| RANDOM := false; MAX_DEPTH := 0 |} 0 small_game
           false (initial_state SMove)).
  - reflexivity.
  - simpl. lia.
  - simpl. lia.
  - reflexivity.
Defined.

(** ** C7: the entry point on a position without legal moves *)

(** C7 as stated fails: in full-search mode the entry point, called on a
    position without legal moves, reports no error; it returns a result whose
    move is absent. *)
Lemma search_without_moves_returns :
  legal_moves no_moves = []
  /\ search {| RANDOM := false; MAX_DEPTH := 2 |} 0 no_moves false (initial_state SMove)
     = (Return {| move := None; ponder := None; draw_offered := false |},
        {| move_counter := 0; board_calls := []; stdout := [0] |}).
Proof. split; reflexivity. Qed.

(** C7, amended.  On a position without legal moves, the random mode and the
    single-ply mode raise IndexError (from choosing in, or indexing, the
    empty list of moves) and leave the state as it was; the full-search mode
    raises nothing: at every depth it returns a result whose move is absent,
    after printing and resetting the counter. *)
Theorem search_without_moves
    {Board Move : Type} {API : ChessAPI Board Move}
    (rnd : nat) (board : Board) (offered : bool) (st : EngineState Move) :
  legal_moves board = [] ->
  (forall depth,
      search {| RANDOM := true; MAX_DEPTH := depth |} rnd board offered st
      = (Raise IndexError, st))
  /\ search {| RANDOM := false; MAX_DEPTH := -1 |} rnd board offered st
     = (Raise IndexError, st)
  /\ (forall depth, depth <> -1 ->
        search {| RANDOM := false; MAX_DEPTH := depth |} rnd board offered st
        = (Return {| move := None; ponder := None; draw_offered := offered |},
           {| move_counter := 0;
              board_calls := board_calls st;
              stdout := move_counter st :: stdout st |})).
Proof.
  intros Hnone. split; [|split].
  - intros depth. unfold search. cbn [RANDOM]. rewrite Hnone. reflexivity.
  - unfold search. cbn [RANDOM MAX_DEPTH]. rewrite Hnone. reflexivity.
  - intros depth Hmode. unfold search. cbn [RANDOM MAX_DEPTH].
    replace (depth =? -1) with false by (symmetry; apply Z.eqb_neq; exact Hmode).
    unfold bind at 1. unfold _ab_search, bind.
    destruct (Z_le_gt_dec depth 0) as [Hle|Hgt].
    + rewrite _recur_unfold.
      replace (depth <=? 0) with true by (symmetry; apply Z.leb_le; exact Hle).
      unfold bind, lift, ret, terminal_value. rewrite Hnone. reflexivity.
    + rewrite (recur_no_moves depth board true NEG_INF INF st) by (lia || assumption).
      reflexivity.
Qed.

Lemma search_without_moves_witness :
  (forall depth,
      search {| RANDOM := true; MAX_DEPTH := depth |} 0 no_moves true (initial_state SMove)
      = (Raise IndexError, initial_state SMove))
  /\ search {| RANDOM := false; MAX_DEPTH := -1 |} 0 no_moves true (initial_state SMove)
     = (Raise IndexError, initial_state SMove)
  /\ (forall depth, depth <> -1 ->
        search {| RANDOM := false; MAX_DEPTH := depth |} 0 no_moves true (initial_state SMove)
        = (Return {| move := None; ponder := None; draw_offered := true |},
           {| move_counter := 0; board_calls := []; stdout := [0] |})).
Proof.
  apply (search_without_moves 0 no_moves true (initial_state SMove)).
  reflexivity.
Defined.

(** ** Sorting *)

Section Sorting.
Context {A : Type}.
Implicit Types (x y : Z * A) (l : list (Z * A)).

Lemma insert_keyed_In x y l : In y (insert_keyed x l) <-> y = x \/ In y l.
Proof.
  induction l as [|z l IH]; simpl.
  - intuition.
  - destruct (fst x <=? fst z); simpl; [intuition|].
    rewrite IH. intuition.
Qed.

Lemma stable_sort_In y l : In y (stable_sort l) <-> In y l.
Proof.
  induction l as [|z l IH]; simpl; [reflexivity|].
  rewrite insert_keyed_In, IH. intuition.
Qed.

Lemma insert_keyed_nonempty x l : insert_keyed x l <> [].
Proof. destruct l as [|z l]; simpl; [|destruct (fst x <=? fst z)]; discriminate. Qed.

Lemma stable_sort_nonempty l : l <> [] -> stable_sort l <> [].
Proof. destruct l as [|z l]; [congruence|]. intros _. apply insert_keyed_nonempty. Qed.

Lemma last_cons_nonempty {B : Type} (z : B) (l : list B) (d : B) :
  l <> [] -> last (z :: l) d = last l d.
Proof. destruct l; [congruence|reflexivity]. Qed.

(** Inserting an element that is not above the last one keeps the last. *)
Lemma insert_keyed_keeps_last x l d :
  l <> [] -> fst x <= fst (last l d) -> last (insert_keyed x l) d = last l d.
Proof.
  induction l as [|z l IH]; intros Hne Hle; [congruence|].
  simpl insert_keyed. destruct (fst x <=? fst z) eqn:Hxz.
  - reflexivity.
  - destruct l as [|w l].
    + simpl in Hle. apply Z.leb_gt in Hxz. lia.
    + rewrite last_cons_nonempty by apply insert_keyed_nonempty.
      apply IH; [discriminate|exact Hle].
Qed.

(** Inserting an element above all the others puts it last. *)
Lemma insert_keyed_above x l :
  (forall y, In y l -> fst y < fst x) -> insert_keyed x l = l ++ [x].
Proof.
  induction l as [|z l IH]; intros Hall; simpl; [reflexivity|].
  assert (Hz : fst z < fst x) by (apply Hall; left; reflexivity).
  replace (fst x <=? fst z) with false by (symmetry; apply Z.leb_gt; exact Hz).
  rewrite IH; [reflexivity|]. intros y Hy. apply Hall. right. exact Hy.
Qed.

End Sorting.

Section SortedByKey.
Context {A : Type} (g : A -> Z).

(** The last element of the stable ascending sort is the last of the
    elements with the greatest key. *)
Lemma stable_sort_last (l : list A) (d : Z * A) :
  l <> [] ->
  exists pre m post,
    l = pre ++ m :: post
    /\ last (stable_sort (decorate g l)) d = (g m, m)
    /\ (forall y, In y pre -> g y <= g m)
    /\ (forall y, In y post -> g y < g m).
Proof.
  induction l as [|x l IH]; intros Hne; [congruence|].
  destruct l as [|x' l'].
  - exists [], x, []. simpl. repeat split; intros y [].
  - destruct IH as (pre & m & post & Hsplit & Hlast & Hpre & Hpost); [discriminate|].
    set (l := x' :: l') in *.
    change (stable_sort (decorate g (x :: l)))
      with (insert_keyed (g x, x) (stable_sort (decorate g l))).
    destruct (Z_le_gt_dec (g x) (g m)) as [Hle|Hgt].
    + exists (x :: pre), m, post. repeat split.
      * simpl. rewrite Hsplit. reflexivity.
      * rewrite insert_keyed_keeps_last.
        -- exact Hlast.
        -- apply stable_sort_nonempty. unfold decorate, l. simpl. discriminate.
        -- rewrite Hlast. simpl. exact Hle.
      * intros y [<-|Hy]; [exact Hle|apply Hpre, Hy].
      * exact Hpost.
    + assert (Hall : forall y, In y l -> g y < g x).
      { intros y Hy. rewrite Hsplit in Hy. apply in_app_or in Hy.
        destruct Hy as [Hy|[<-|Hy]].
        - specialize (Hpre y Hy). lia.
        - lia.
        - specialize (Hpost y Hy). lia. }
      exists [], x, l. repeat split.
      * rewrite insert_keyed_above.
        -- apply last_last.
        -- intros y Hy. apply (proj1 (stable_sort_In y _)) in Hy.
           unfold decorate in Hy. apply in_map_iff in Hy.
           destruct Hy as (a & <- & Ha). simpl. apply Hall, Ha.
      * intros y [].
      * exact Hall.
Qed.

(** The first element of the descending sort, as the interpreter computes
    it, is the first of the elements with the greatest key. *)
Lemma reverse_sort_head (l : list A) :
  l <> [] ->
  exists before chosen after rest,
    l = before ++ chosen :: after
    /\ map snd (rev (stable_sort (rev (decorate g l)))) = chosen :: rest
    /\ (forall y, In y before -> g y < g chosen)
    /\ (forall y, In y after -> g y <= g chosen).
Proof.
  intros Hne.
  destruct l as [|x0 l0]; [congruence|].
  set (l := x0 :: l0) in *.
  assert (Hrev : rev l <> []).
  { intros H. apply (f_equal (@length A)) in H. rewrite length_rev in H.
    discriminate. }
  destruct (stable_sort_last (rev l) (g x0, x0) Hrev)
    as (pre & m & post & Hsplit & Hlast & Hpre & Hpost).
  exists (rev post), m, (rev pre).
  assert (Hdec : rev (decorate g l) = decorate g (rev l)).
  { unfold decorate. symmetry. apply map_rev. }
  rewrite Hdec.
  assert (Hsorted : stable_sort (decorate g (rev l)) <> []).
  { apply stable_sort_nonempty. unfold decorate. intros H.
    apply map_eq_nil in H. exact (Hrev H). }
  destruct (exists_last Hsorted) as (front & z & Hfront).
  rewrite Hfront in Hlast. rewrite last_last in Hlast. subst z.
  exists (map snd (rev front)). repeat split.
  - rewrite <- (rev_involutive l), Hsplit, rev_app_distr. simpl.
    rewrite <- app_assoc. reflexivity.
  - rewrite Hfront, rev_app_distr. reflexivity.
  - intros y Hy. apply Hpost. apply in_rev. exact Hy.
  - intros y Hy. apply Hpre. apply in_rev. exact Hy.
Qed.

End SortedByKey.

Lemma py_index_head {A : Type} (x : A) (l : list A) : py_index (x :: l) 0 = Return x.
Proof.
  unfold py_index. cbv zeta.
  replace (0 <? 0) with false by reflexivity.
  replace (Z.of_nat (length (x :: l)) <=? 0) with false
    by (symmetry; apply Z.leb_gt; simpl length; lia).
  reflexivity.
Qed.

Lemma combine_map {A B : Type} (f : A -> B) (l : list A) :
  combine (map f l) l = map (fun a => (f a, a)) l.
Proof. induction l as [|x l IH]; simpl; [reflexivity|]. rewrite IH. reflexivity. Qed.

(** ** C3: the single-ply mode *)

(** C3 as stated fails.  In the position with the two tied moves, enumerated
    as [tie_first; tie_second], both moves have the greatest score and the
    single-ply mode chooses [tie_first], the earlier one; a stable ascending
    sort read in reverse would put [tie_second] first. *)
Lemma single_ply_tie_takes_earlier :
  legal_moves tied_position = [tie_first; tie_second]
  /\ _score_move tied_position tie_first = Return 25146368
  /\ _score_move tied_position tie_second = Return 25146368
  /\ tie_first <> tie_second
  /\ fst (search module_config 0 tied_position false (initial_state SMove))
     = Return {| move := Some tie_first; ponder := None; draw_offered := false |}
  /\ ascending_read_in_reverse [(25146368, tie_first); (25146368, tie_second)]
     = [tie_second; tie_first].
Proof.
  repeat split; try reflexivity.
  discriminate.
Qed.

(** C3, amended.  In the single-ply mode ([RANDOM] off, [MAX_DEPTH = -1]),
    on a well-formed position with at least one legal move, the chosen move
    has the greatest [_score_move] value of the legal moves, and among the
    moves with that value it is the one that comes first in the enumeration
    of the legal moves: every move before it scores strictly less. *)
Theorem single_ply_choice
    {Board Move : Type} {API : ChessAPI Board Move}
    (cfg : Config) (rnd : nat) (board : Board) (offered : bool) (st : EngineState Move) :
  RANDOM cfg = false -> MAX_DEPTH cfg = -1 ->
  well_formed_position board = true -> legal_moves board <> [] ->
  exists before chosen after v,
    legal_moves board = before ++ chosen :: after
    /\ search cfg rnd board offered st
       = (Return {| move := Some chosen; ponder := None; draw_offered := offered |},
          {| move_counter := 0;
             board_calls := board_calls st;
             stdout := move_counter st :: stdout st |})
    /\ _score_move board chosen = Return v
    /\ (forall m, In m before -> exists s, _score_move board m = Return s /\ s < v)
    /\ (forall m, In m after -> exists s, _score_move board m = Return s /\ s <= v).
Proof.
  intros Hrandom Hmode Hpos Hne.
  set (g := fun m => value_of (_score_move board m)).
  assert (Hscore : forall m, In m (legal_moves board) -> _score_move board m = Return (g m)).
  { intros m Hm.
    destruct (score_move_bounds board m (well_formed_position_In board m Hpos Hm))
      as (s & Hs & _). unfold g. rewrite Hs. reflexivity. }
  destruct (reverse_sort_head g (legal_moves board) Hne)
    as (before & chosen & after & rest & Hsplit & Hsorted & Hbefore & Hafter).
  exists before, chosen, after, (g chosen).
  assert (Hin : forall m, In m before \/ m = chosen \/ In m after -> In m (legal_moves board)).
  { intros m Hm. rewrite Hsplit. apply in_or_app.
    destruct Hm as [Hm|[->|Hm]]; [left; exact Hm|right; left; reflexivity|right; right; exact Hm]. }
  split; [exact Hsplit|]. split; [|split; [|split]].
  - unfold search. rewrite Hrandom, Hmode. cbn [Z.eqb Pos.eqb].
    unfold py_sorted.
    rewrite (traverse_map (_score_move board) g (legal_moves board) Hscore).
    cbn [obind]. rewrite combine_map.
    change (map (fun a => (g a, a)) (legal_moves board)) with (decorate g (legal_moves board)).
    rewrite Hsorted.
    unfold bind, lift, ret. rewrite py_index_head. reflexivity.
  - apply Hscore, Hin. right. left. reflexivity.
  - intros m Hm. exists (g m). split; [apply Hscore, Hin; left; exact Hm|].
    apply Hbefore, Hm.
  - intros m Hm. exists (g m). split; [apply Hscore, Hin; right; right; exact Hm|].
    apply Hafter, Hm.
Qed.

Lemma single_ply_choice_witness :
  exists before chosen after v,
    legal_moves leaf_d = before ++ chosen :: after
    /\ search module_config 0 leaf_d true (initial_state SMove)
       = (Return {| move := Some chosen; ponder := None; draw_offered := true |},
          {| move_counter := 0; board_calls := []; stdout := [0] |})
    /\ _score_move leaf_d chosen = Return v
    /\ (forall m, In m before -> exists s, _score_move leaf_d m = Return s /\ s < v)
    /\ (forall m, In m after -> exists s, _score_move leaf_d m = Return s /\ s <= v).
Proof.
  apply (single_ply_choice module_config 0 leaf_d true (initial_state SMove)).
  - reflexivity.
  - reflexivity.
  - reflexivity.
  - simpl. discriminate.
Defined.

(** ** C9: the move counter *)

Section Counter.
Context {Board Move : Type} {API : ChessAPI Board Move}.
Open Scope py_scope.

Lemma in_step_ret {A : Type} (a : A) : in_step (@ret Move A a).
Proof. intros st r st' H. injection H as _ <-. split; [lia|reflexivity]. Qed.

Lemma in_step_lift {A : Type} (x : outcome A) : in_step (@lift Move A x).
Proof. intros st r st' H. injection H as _ <-. split; [lia|reflexivity]. Qed.

Lemma in_step_bind {A B : Type} (c : Py Move A) (f : A -> Py Move B) :
  in_step c -> (forall a, in_step (f a)) -> in_step (bind c f).
Proof.
  intros Hc Hf st r st' H. unfold bind in H.
  destruct (c st) as [[a|e] st1] eqn:Hrun.
  - destruct (Hc _ _ _ Hrun) as [H1 H2]. destruct (Hf a _ _ _ H) as [H3 H4].
    split; [lia|congruence].
  - injection H as _ <-. exact (Hc _ _ _ Hrun).
Qed.

(** One iteration's prologue: the increment and the push go together. *)
Lemma in_step_visit {A : Type} (m : Move) (k : Py Move A) :
  in_step k -> in_step (incr_move_counter ;;; call_push m ;;; k).
Proof.
  intros Hk st r st' H. unfold bind, incr_move_counter, call_push in H.
  destruct (Hk _ _ _ H) as [H1 H2]. cbn [move_counter board_calls stdout pushes] in H1, H2.
  split; [lia|exact H2].
Qed.

Lemma in_step_pop {A : Type} (k : Py Move A) :
  in_step k -> in_step (call_pop ;;; k).
Proof.
  intros Hk st r st' H. unfold bind, call_pop in H.
  destruct (Hk _ _ _ H) as [H1 H2]. cbn [move_counter board_calls stdout pushes] in H1, H2.
  split; [lia|exact H2].
Qed.

Lemma max_loop_in_step (child : Move -> Z -> Z -> Py Move Z) (moves : list Move) :
  (forall m a b, in_step (child m a b)) ->
  forall best_move best_val alpha beta,
    in_step (max_loop child moves best_move best_val alpha beta).
Proof.
  intros Hchild. induction moves as [|m rest IH]; intros bm bv alpha beta.
  - apply in_step_ret.
  - cbn [max_loop]. apply in_step_visit. apply in_step_bind; [apply Hchild|].
    intros s. apply in_step_pop.
    destruct (beta <? s); [apply in_step_ret|apply IH].
Qed.

Lemma min_loop_in_step (child : Move -> Z -> Z -> Py Move Z) (moves : list Move) :
  (forall m a b, in_step (child m a b)) ->
  forall best_move best_val alpha beta,
    in_step (min_loop child moves best_move best_val alpha beta).
Proof.
  intros Hchild. induction moves as [|m rest IH]; intros bm bv alpha beta.
  - apply in_step_ret.
  - cbn [min_loop]. apply in_step_visit. apply in_step_bind; [apply Hchild|].
    intros s. apply in_step_pop.
    destruct (s <=? alpha); [apply in_step_ret|apply IH].
Qed.

Lemma recur_plies_in_step (plies : nat) :
  forall board maximize alpha beta,
    in_step (recur_plies plies board maximize alpha beta).
Proof.
  induction plies as [|plies IH]; intros board maximize alpha beta.
  - cbn [recur_plies]. apply in_step_bind; [apply in_step_lift|].
    intros v. apply in_step_ret.
  - cbn [recur_plies].
    destruct (legal_moves board) as [|first rest]; [apply in_step_ret|].
    apply in_step_bind; [|intros r; apply in_step_ret].
    assert (Hchild : forall m a b,
               in_step (r <- recur_plies plies (push board m) (negb maximize) a b ;;
                        ret (snd r))).
    { intros m a b. apply in_step_bind; [apply IH|]. intros r. apply in_step_ret. }
    destruct maximize; [apply max_loop_in_step|apply min_loop_in_step]; exact Hchild.
Qed.

Lemma ab_search_in_step (board : Board) (depth : Z) : in_step (_ab_search board depth).
Proof.
  unfold _ab_search, _recur. apply in_step_bind; [apply recur_plies_in_step|].
  intros r. apply in_step_ret.
Qed.

(** The best move of either deterministic mode, before the print. *)
Lemma best_move_in_step (cfg : Config) (board : Board) :
  in_step (if MAX_DEPTH cfg =? -1 then
             sorted_moves <- lift (py_sorted (_score_move board) true (legal_moves board)) ;;
             m <- lift (py_index sorted_moves 0) ;;
             ret (Some m)
           else _ab_search board (MAX_DEPTH cfg)).
Proof.
  destruct (MAX_DEPTH cfg =? -1).
  - apply in_step_bind; [apply in_step_lift|]. intros l.
    apply in_step_bind; [apply in_step_lift|]. intros m. apply in_step_ret.
  - apply ab_search_in_step.
Qed.

(** A deterministic search that returns has printed the counter it was
    entered with plus its own pushes, and has left the counter at zero. *)
Lemma search_reports (cfg : Config) (rnd : nat) (board : Board) (offered : bool)
    (st st' : EngineState Move) (res : PlayResult Move) :
  RANDOM cfg = false ->
  search cfg rnd board offered st = (Return res, st') ->
  move_counter st' = 0
  /\ stdout st'
     = (move_counter st + (pushes (board_calls st') - pushes (board_calls st))) :: stdout st.
Proof.
  intros Hrandom Hrun. unfold search in Hrun. rewrite Hrandom in Hrun.
  unfold bind at 1 in Hrun.
  match type of Hrun with
  | context [?c st] => destruct (c st) as [[best|e] st1] eqn:Hbest
  end; [|discriminate].
  destruct (best_move_in_step cfg board _ _ _ Hbest) as [H1 H2].
  unfold bind, print_move_counter, reset_move_counter, ret in Hrun.
  injection Hrun as _ <-. cbn. split; [reflexivity|].
  rewrite H2. f_equal. lia.
Qed.

(** A search that returns leaves a counter that was zero at zero. *)
Lemma search_keeps_zero (cfg : Config) (rnd : nat) (board : Board) (offered : bool)
    (st st' : EngineState Move) (res : PlayResult Move) :
  move_counter st = 0 ->
  search cfg rnd board offered st = (Return res, st') ->
  move_counter st' = 0.
Proof.
  intros Hzero Hrun. destruct (RANDOM cfg) eqn:Hrandom.
  - unfold search in Hrun. rewrite Hrandom in Hrun.
    unfold bind, lift, ret in Hrun.
    destruct (random_choice rnd (legal_moves board)); [|discriminate].
    injection Hrun as _ <-. exact Hzero.
  - apply (search_reports cfg rnd board offered st st' res Hrandom Hrun).
Qed.

End Counter.

(** C9 as stated fails: the counter is not reset when a search starts but
    when it ends.  A full search of depth 1 on the position with one move
    makes one push and leaves the counter at 0, not at 1; and entered after a
    direct call of [_ab_search] that left the counter at 7, it prints 8 for
    its single push. *)
Lemma counter_is_reset_at_the_end :
  search {| RANDOM := false; MAX_DEPTH := 1 |} 0 one_move false (initial_state SMove)
  = (Return {| move := Some (smove 0 8 0); ponder := None; draw_offered := false |},
     {| move_counter := 0;
        board_calls := [CallPop; CallPush (smove 0 8 0)];
        stdout := [1] |})
  /\ move_counter (snd (_ab_search small_game 2 (initial_state SMove))) = 7
  /\ stdout (snd (search {| RANDOM := false; MAX_DEPTH := 1 |} 0 one_move false
                    (snd (_ab_search small_game 2 (initial_state SMove)))))
     = [8].
Proof. repeat split. Qed.

(** C9, amended.  The counter grows by exactly one with every push of the
    recursive search.  A search in a deterministic mode that returns prints
    the counter (the value it was entered with plus the pushes it made) and
    then resets it to zero, at its end.  Hence, starting from a counter at
    zero, of two consecutive searches that return the second prints exactly
    the number of its own pushes, without those of the first. *)
Theorem counter_counts_pushes_and_is_reset
    {Board Move : Type} {API : ChessAPI Board Move} :
  (forall depth (board : Board) maximize alpha beta (st st' : EngineState Move) r,
      _recur depth board maximize alpha beta st = (r, st') ->
      move_counter st' - move_counter st
      = pushes (board_calls st') - pushes (board_calls st))
  /\ (forall cfg rnd (board : Board) offered (st st' : EngineState Move) res,
         RANDOM cfg = false ->
         search cfg rnd board offered st = (Return res, st') ->
         move_counter st' = 0
         /\ stdout st'
            = (move_counter st + (pushes (board_calls st') - pushes (board_calls st)))
              :: stdout st)
  /\ (forall cfg1 cfg2 rnd1 rnd2 (board1 board2 : Board) offered1 offered2
             (st0 st1 st2 : EngineState Move) res1 res2,
         move_counter st0 = 0 ->
         search cfg1 rnd1 board1 offered1 st0 = (Return res1, st1) ->
         RANDOM cfg2 = false ->
         search cfg2 rnd2 board2 offered2 st1 = (Return res2, st2) ->
         move_counter st2 = 0
         /\ stdout st2
            = (pushes (board_calls st2) - pushes (board_calls st1)) :: stdout st1).
Proof.
  split; [|split].
  - intros depth board maximize alpha beta st st' r Hrun.
    apply (recur_plies_in_step (Z.to_nat depth) board maximize alpha beta st r st' Hrun).
  - intros cfg rnd board offered st st' res. apply search_reports.
  - intros cfg1 cfg2 rnd1 rnd2 board1 board2 offered1 offered2 st0 st1 st2 res1 res2
           Hzero Hfirst Hrandom Hsecond.
    pose proof (search_keeps_zero cfg1 rnd1 board1 offered1 st0 st1 res1 Hzero Hfirst) as Hz.
    destruct (search_reports cfg2 rnd2 board2 offered2 st1 st2 res2 Hrandom Hsecond)
      as [Hreset Hout].
    split; [exact Hreset|]. rewrite Hout, Hz. f_equal.
Qed.

Lemma counter_counts_pushes_and_is_reset_witness :
  move_counter (snd (_recur 2 small_game true NEG_INF INF (initial_state SMove)))
  - move_counter (initial_state SMove)
  = pushes (board_calls (snd (_recur 2 small_game true NEG_INF INF (initial_state SMove))))
    - pushes (board_calls (initial_state SMove))
  /\ (move_counter after_first_search = 0
      /\ stdout after_first_search
         = (move_counter (initial_state SMove)
            + (pushes (board_calls after_first_search)
               - pushes (board_calls (initial_state SMove))))
           :: stdout (initial_state SMove))
  /\ (move_counter after_second_search = 0
      /\ stdout after_second_search
         = (pushes (board_calls after_second_search) - pushes (board_calls after_first_search))
           :: stdout after_first_search).
Proof.
  destruct (@counter_counts_pushes_and_is_reset SBoard SMove synthetic)
    as (Hrecur & Hsearch & Htwo).
  split; [|split].
  - apply (Hrecur 2 small_game true NEG_INF INF (initial_state SMove) _
             (fst (_recur 2 small_game true NEG_INF INF (initial_state SMove)))).
    apply surjective_pairing.
  - apply (Hsearch {| RANDOM := false; MAX_DEPTH := 2 |} 0%nat small_game false
             (initial_state SMove) after_first_search
             {| move := Some (smove 0 24 2); ponder := None; draw_offered := false |});
      vm_compute; reflexivity.
  - apply (Htwo {| RANDOM := false; MAX_DEPTH := 2 |} {| RANDOM := false; MAX_DEPTH := 1 |}
             0%nat 0%nat small_game one_move false false
             (initial_state SMove) after_first_search after_second_search
             {| move := Some (smove 0 24 2); ponder := None; draw_offered := false |}
             {| move := Some (smove 0 8 0); ponder := None; draw_offered := false |});
      vm_compute; reflexivity.
Defined.

(** ** C1: the pruned search returns the minimax value *)

Lemma sentinels_ordered : NEG_INF < INF.
Proof. rewrite NEG_INF_value, INF_value. lia. Qed.

Lemma window_spec_exact (alpha beta m : Z) : window_spec alpha beta m m.
Proof. unfold window_spec. lia. Qed.

(** With the full window, the returned value is the minimax value. *)
Lemma window_spec_full (m v : Z) :
  NEG_INF <= m <= INF -> window_spec NEG_INF INF m v -> v = m.
Proof. pose proof sentinels_ordered. unfold window_spec. lia. Qed.

Section AlphaBeta.
Context {Board Move : Type} {API : ChessAPI Board Move}.
Open Scope py_scope.

Lemma child_sound_tail (child : Move -> Z -> Z -> Py Move Z) (cm : Move -> Z)
    (m : Move) (rest : list Move) :
  child_sound child cm (m :: rest) -> child_sound child cm rest.
Proof. intros H x Hx. apply H. right. exact Hx. Qed.

Lemma max_loop_sound (child : Move -> Z -> Z -> Py Move Z) (cm : Move -> Z)
    (moves : list Move) :
  child_sound child cm moves ->
  forall best_move best_val alpha beta st,
    NEG_INF <= alpha -> best_val <= alpha -> alpha <= beta -> beta <= INF ->
    exists best v st',
      max_loop child moves best_move best_val alpha beta st = (Return (best, v), st')
      /\ best_val <= v
      /\ (v <= alpha -> forall m, In m moves -> cm m <= v)
      /\ (alpha < v < beta ->
          (exists m, In m moves /\ cm m = v) /\ forall m, In m moves -> cm m <= v)
      /\ (alpha < v -> beta <= v -> exists m, In m moves /\ v <= cm m).
Proof.
  induction moves as [|c rest IH]; intros Hchild bm bv alpha beta st Hlo Hbv Hab Hhi.
  - exists bm, bv, st. split; [reflexivity|]. split; [lia|].
    split; [intros _ m []|]. split; intros; lia.
  - destruct (Hchild c (or_introl eq_refl) alpha beta
                {| move_counter := move_counter st + 1;
                   board_calls := CallPush c :: board_calls st;
                   stdout := stdout st |} Hlo Hab Hhi)
      as (s & st1 & Hrun & HA & HB & HC).
    cbn [max_loop]. unfold bind at 1 2 3. unfold incr_move_counter, call_push.
    cbn [move_counter board_calls stdout]. rewrite Hrun. unfold bind at 1. unfold call_pop.
    destruct (beta <? s) eqn:Hbreak.
    + apply Z.ltb_lt in Hbreak.
      replace (s >? bv) with true by (symmetry; apply Z.gtb_lt; lia).
      eexists _, s, _. split; [reflexivity|].
      split; [lia|]. split; [lia|]. split; [lia|].
      intros _ _. exists c. split; [left; reflexivity|]. apply HC; lia.
    + apply Z.ltb_ge in Hbreak.
      set (bv' := if s >? bv then s else bv).
      assert (Hbv' : bv' = Z.max bv s).
      { unfold bv'. destruct (s >? bv) eqn:Hgt;
          [apply Z.gtb_lt in Hgt|rewrite Z.gtb_ltb in Hgt; apply Z.ltb_ge in Hgt]; lia. }
      destruct (IH (child_sound_tail child cm c rest Hchild)
                  (if s >? bv then c else bm) bv' (Z.max bv' alpha) beta
                  {| move_counter := move_counter st1;
                     board_calls := CallPop :: board_calls st1;
                     stdout := stdout st1 |})
        as (best & v & st' & Hloop & Hmono & LA & LB & LC); try lia.
      exists best, v, st'. split; [exact Hloop|].
      split; [lia|]. split; [|split].
      * intros Hv m [<-|Hm]; [lia|]. apply LA; [lia|exact Hm].
      * intros Hv. destruct (Z_le_gt_dec v (Z.max bv' alpha)) as [Hle|Hgt].
        -- assert (v = s) by lia. subst v. split.
           ++ exists c. split; [left; reflexivity|]. lia.
           ++ intros m [<-|Hm]; [lia|]. apply LA; [lia|exact Hm].
        -- destruct LB as [(m & Hm & Hcm) Hall]; [lia|]. split.
           ++ exists m. split; [right; exact Hm|exact Hcm].
           ++ intros m' [<-|Hm']; [|apply Hall, Hm'].
              destruct (Z_le_gt_dec s alpha); lia.
      * intros Hv1 Hv2. destruct (Z_le_gt_dec v (Z.max bv' alpha)) as [Hle|Hgt].
        -- exists c. split; [left; reflexivity|]. lia.
        -- destruct LC as (m & Hm & Hcm); [lia|lia|].
           exists m. split; [right; exact Hm|exact Hcm].
Qed.

Lemma min_loop_sound (child : Move -> Z -> Z -> Py Move Z) (cm : Move -> Z)
    (moves : list Move) :
  child_sound child cm moves ->
  forall best_move best_val alpha beta st,
    NEG_INF <= alpha -> alpha <= beta -> beta <= best_val -> beta <= INF ->
    exists best v st',
      min_loop child moves best_move best_val alpha beta st = (Return (best, v), st')
      /\ v <= best_val
      /\ (v <= alpha -> v < best_val -> exists m, In m moves /\ cm m <= v)
      /\ (alpha < v < beta ->
          (exists m, In m moves /\ cm m = v) /\ forall m, In m moves -> v <= cm m)
      /\ (alpha < v -> beta <= v -> forall m, In m moves -> v <= cm m).
Proof.
  induction moves as [|c rest IH]; intros Hchild bm bv alpha beta st Hlo Hab Hbv Hhi.
  - exists bm, bv, st. split; [reflexivity|]. split; [lia|].
    split; [lia|]. split; [lia|]. intros _ _ m [].
  - destruct (Hchild c (or_introl eq_refl) alpha beta
                {| move_counter := move_counter st + 1;
                   board_calls := CallPush c :: board_calls st;
                   stdout := stdout st |} Hlo Hab Hhi)
      as (s & st1 & Hrun & HA & HB & HC).
    cbn [min_loop]. unfold bind at 1 2 3. unfold incr_move_counter, call_push.
    cbn [move_counter board_calls stdout]. rewrite Hrun. unfold bind at 1. unfold call_pop.
    set (bv' := if s <? bv then s else bv).
    assert (Hbv' : bv' = Z.min bv s).
    { unfold bv'. destruct (s <? bv) eqn:Hlt;
        [apply Z.ltb_lt in Hlt|apply Z.ltb_ge in Hlt]; lia. }
    destruct (s <=? alpha) eqn:Hbreak.
    + apply Z.leb_le in Hbreak.
      eexists _, bv', _. split; [reflexivity|].
      split; [lia|]. split; [|split; [lia|lia]].
      intros _ _. exists c. split; [left; reflexivity|]. lia.
    + apply Z.leb_gt in Hbreak.
      destruct (IH (child_sound_tail child cm c rest Hchild)
                  (if s <? bv then c else bm) bv' alpha (Z.min bv' beta)
                  {| move_counter := move_counter st1;
                     board_calls := CallPop :: board_calls st1;
                     stdout := stdout st1 |})
        as (best & v & st' & Hloop & Hmono & LA & LB & LC); try lia.
      exists best, v, st'. split; [exact Hloop|].
      split; [lia|]. split; [|split].
      * intros Hv1 Hv2. destruct LA as (m & Hm & Hcm); [lia|lia|].
        exists m. split; [right; exact Hm|exact Hcm].
      * intros Hv. destruct (Z_lt_ge_dec v (Z.min bv' beta)) as [Hlt|Hge].
        -- destruct LB as [(m & Hm & Hcm) Hall]; [lia|]. split.
           ++ exists m. split; [right; exact Hm|exact Hcm].
           ++ intros m' [<-|Hm']; [|apply Hall, Hm'].
              destruct (Z_lt_ge_dec s beta); lia.
        -- assert (v = s) by lia. subst v. split.
           ++ exists c. split; [left; reflexivity|]. lia.
           ++ intros m [<-|Hm]; [lia|]. apply LC; [lia|lia|exact Hm].
      * intros Hv1 Hv2 m [<-|Hm]; [lia|]. apply LC; [lia|lia|exact Hm].
Qed.

End AlphaBeta.

Section SearchIsMinimax.
Context {Board Move : Type} {API : ChessAPI Board Move}.
Open Scope py_scope.

Lemma well_formed_to_position (plies : nat) (board : Board) :
  well_formed_to plies board = true -> well_formed_position board = true.
Proof. destruct plies; simpl; intros H; apply andb_true_iff in H; apply H. Qed.

Lemma well_formed_to_push (plies : nat) (board : Board) (m : Move) :
  well_formed_to (S plies) board = true -> In m (legal_moves board) ->
  well_formed_to plies (push board m) = true.
Proof.
  simpl. intros H Hm. apply andb_true_iff in H. destruct H as [_ H].
  rewrite forallb_forall in H. apply H, Hm.
Qed.

Lemma greatest_spec (l : list Z) :
  l <> [] -> In (greatest l) l /\ forall y, In y l -> y <= greatest l.
Proof. destruct l as [|x t]; [congruence|]. intros _. apply fold_max_spec. Qed.

Lemma least_spec (l : list Z) :
  l <> [] -> In (least l) l /\ forall y, In y l -> least l <= y.
Proof. destruct l as [|x t]; [congruence|]. intros _. apply fold_min_spec. Qed.

(** On a position well formed to the depth of the search, exhaustive
    minimax returns a value between the sentinels, and the pruned search
    returns, within any window, a value that meets [window_spec] for it. *)
Lemma recur_plies_sound (plies : nat) :
  forall (board : Board) (maximize : bool),
    well_formed_to plies board = true ->
    exists mm,
      minimax_plies plies board maximize = Return mm
      /\ NEG_INF <= mm <= INF
      /\ forall alpha beta st,
           NEG_INF <= alpha -> alpha <= beta -> beta <= INF ->
           exists best v st',
             recur_plies plies board maximize alpha beta st = (Return (best, v), st')
             /\ window_spec alpha beta mm v.
Proof.
  pose proof sentinels_ordered as Hsent.
  induction plies as [|plies IH]; intros board maximize Hwf.
  - destruct (terminal_value_returns board (well_formed_to_position 0 board Hwf))
      as (v & Hv & Hbound).
    exists v. split; [exact Hv|]. split; [lia|].
    intros alpha beta st _ _ _. exists None, v, st. split.
    + cbn [recur_plies]. unfold bind, lift, ret. rewrite Hv. reflexivity.
    + apply window_spec_exact.
  - set (cm := fun m => value_of (minimax_plies plies (push board m) (negb maximize))).
    assert (Hcm : forall m, In m (legal_moves board) ->
              minimax_plies plies (push board m) (negb maximize) = Return (cm m)
              /\ NEG_INF <= cm m <= INF).
    { intros m Hm.
      destruct (IH (push board m) (negb maximize) (well_formed_to_push plies board m Hwf Hm))
        as (mm & Hmm & Hbound & _).
      unfold cm. rewrite Hmm. split; [reflexivity|exact Hbound]. }
    assert (Hchild : child_sound
              (fun m a b => r <- recur_plies plies (push board m) (negb maximize) a b ;;
                            ret (snd r))
              cm (legal_moves board)).
    { intros m Hm a b st Ha Hab Hb.
      destruct (IH (push board m) (negb maximize) (well_formed_to_push plies board m Hwf Hm))
        as (mm & Hmm & _ & Hrun).
      destruct (Hrun a b st Ha Hab Hb) as (best & v & st' & Hv & Hspec).
      exists v, st'. split.
      - unfold bind, ret. rewrite Hv. reflexivity.
      - unfold cm. rewrite Hmm. exact Hspec. }
    assert (Hmini : minimax_plies (S plies) board maximize
                    = match legal_moves board with
                      | [] => Return NEG_INF
                      | _ :: _ =>
                          Return (if maximize then greatest (map cm (legal_moves board))
                                  else least (map cm (legal_moves board)))
                      end).
    { cbn [minimax_plies]. destruct (legal_moves board) as [|first rest] eqn:Hmoves;
        [reflexivity|].
      rewrite <- Hmoves in *.
      rewrite (traverse_map _ cm); [reflexivity|]. intros m Hm. apply Hcm, Hm. }
    rewrite Hmini. cbn [recur_plies].
    destruct (legal_moves board) as [|first rest] eqn:Hmoves.
    + exists NEG_INF. split; [reflexivity|]. split; [lia|].
      intros alpha beta st _ _ _. exists None, NEG_INF, st.
      split; [reflexivity|apply window_spec_exact].
    + set (moves := first :: rest) in *.
      assert (Hne : map cm moves <> []) by (unfold moves; simpl; discriminate).
      assert (Hin_cm : forall y, In y (map cm moves) ->
                exists m, In m moves /\ cm m = y /\ NEG_INF <= y <= INF).
      { intros y Hy. apply in_map_iff in Hy. destruct Hy as (m & <- & Hm).
        exists m. split; [exact Hm|]. split; [reflexivity|apply Hcm, Hm]. }
      destruct maximize.
      * destruct (greatest_spec (map cm moves) Hne) as [Hin Hle].
        destruct (Hin_cm _ Hin) as (m0 & Hm0 & Hcm0 & Hbound).
        eexists. split; [reflexivity|]. split; [exact Hbound|].
        intros alpha beta st Ha Hab Hb.
        destruct (max_loop_sound _ cm moves Hchild first NEG_INF alpha beta st)
          as (best & v & st' & Hloop & _ & LA & LB & LC); try lia.
        exists (Some best), v, st'. split.
        -- unfold bind at 1. rewrite Hloop. reflexivity.
        -- unfold window_spec. split; [|split].
           ++ intros Hv. rewrite <- Hcm0. apply LA; [exact Hv|exact Hm0].
           ++ intros Hv. destruct (LB Hv) as [(m & Hm & Hcmv) Hall].
              specialize (Hall m0 Hm0).
              assert (cm m <= greatest (map cm moves)) by (apply Hle, in_map, Hm).
              lia.
           ++ intros Hv1 Hv2. destruct (LC Hv1 Hv2) as (m & Hm & Hcmv).
              assert (cm m <= greatest (map cm moves)) by (apply Hle, in_map, Hm).
              lia.
      * destruct (least_spec (map cm moves) Hne) as [Hin Hle].
        destruct (Hin_cm _ Hin) as (m0 & Hm0 & Hcm0 & Hbound).
        eexists. split; [reflexivity|]. split; [exact Hbound|].
        intros alpha beta st Ha Hab Hb.
        destruct (min_loop_sound _ cm moves Hchild first INF alpha beta st)
          as (best & v & st' & Hloop & Hmono & LA & LB & LC); try lia.
        exists (Some best), v, st'. split.
        -- unfold bind at 1. rewrite Hloop. reflexivity.
        -- unfold window_spec. split; [|split].
           ++ intros Hv. destruct (Z_lt_ge_dec v INF) as [Hlt|Hge]; [|lia].
              destruct (LA Hv Hlt) as (m & Hm & Hcmv).
              assert (least (map cm moves) <= cm m) by (apply Hle, in_map, Hm).
              lia.
           ++ intros Hv. destruct (LB Hv) as [(m & Hm & Hcmv) Hall].
              specialize (Hall m0 Hm0).
              assert (least (map cm moves) <= cm m) by (apply Hle, in_map, Hm).
              lia.
           ++ intros Hv1 Hv2. rewrite <- Hcm0. apply LC; [exact Hv1|exact Hv2|exact Hm0].
Qed.

End SearchIsMinimax.

(** C1.  On every position well formed to the depth of the search, and for
    every depth, the search called at the root as a maximizing node with the
    window [(NEG_INF, INF)] returns, and the value it returns is the value of
    exhaustive unpruned minimax to the same depth with the same terminal
    value and the same rule for a node without legal moves. *)
Theorem alpha_beta_is_minimax
    {Board Move : Type} {API : ChessAPI Board Move}
    (depth : Z) (board : Board) (st : EngineState Move) :
  well_formed_to (Z.to_nat depth) board = true ->
  exists best v st',
    _recur depth board true NEG_INF INF st = (Return (best, v), st')
    /\ minimax depth board true = Return v.
Proof.
  intros Hwf. pose proof sentinels_ordered as Hsent.
  destruct (recur_plies_sound (Z.to_nat depth) board true Hwf) as (mm & Hmm & Hbound & Hrun).
  destruct (Hrun NEG_INF INF st) as (best & v & st' & Hv & Hspec); try lia.
  exists best, v, st'. split; [exact Hv|].
  unfold minimax. rewrite Hmm. f_equal. symmetry.
  apply window_spec_full; assumption.
Qed.

Lemma alpha_beta_is_minimax_witness :
  exists best v st',
    _recur 3 small_game true NEG_INF INF (initial_state SMove) = (Return (best, v), st')
    /\ minimax 3 small_game true = Return v.
Proof.
  apply (alpha_beta_is_minimax 3 small_game (initial_state SMove)).
  vm_compute. reflexivity.
Defined.

(** * Further properties of the scorer *)

Lemma in_all_indices (s : Z) : -64 <= s < 64 -> In s all_indices.
Proof.
  intros Hs. unfold all_indices. apply in_map_iff.
  exists (Z.to_nat (s + 64)). split; [lia|]. apply in_seq. lia.
Qed.

Lemma square_mirror_involutive (s : Z) : square_mirror (square_mirror s) = s.
Proof.
  unfold square_mirror. rewrite Z.lxor_assoc, Z.lxor_nilpotent. apply Z.lxor_0_r.
Qed.

(** Mirroring keeps a square in its block of 64. *)
Lemma square_mirror_block (s : Z) : square_mirror s / 64 = s / 64.
Proof.
  unfold square_mirror.
  change 64 with (2 ^ 6). rewrite <- !Z.shiftr_div_pow2 by lia.
  rewrite Z.shiftr_lxor. change (Z.shiftr 56 6) with 0. apply Z.lxor_0_r.
Qed.

Lemma PSQT_key_error (t : Z) : ~ 1 <= t <= 6 -> PSQT (Some t) = Raise KeyError.
Proof.
  intros Ht. unfold PSQT.
  destruct t as [|p|p]; try reflexivity.
  destruct p as [[[q|q|]|[q|q|]|]|[[q|q|]|[q|q|]|]|]; try reflexivity; lia.
Qed.

Lemma PSQT_length (t : Z) (table : list Z) :
  PSQT (Some t) = Return table -> length table = 64%nat.
Proof.
  intros H.
  destruct (Z_le_dec 1 t) as [H1|H1]; [destruct (Z_le_dec t 6) as [H6|H6]|].
  - destruct (piece_type_cases t (conj H1 H6)) as [->|[->|[->|[->|[->| ->]]]]];
      injection H as <-; reflexivity.
  - rewrite PSQT_key_error in H by lia. discriminate.
  - rewrite PSQT_key_error in H by lia. discriminate.
Qed.

Lemma py_index_out_of_range {A : Type} (l : list A) (i : Z) :
  i < - Z.of_nat (length l) \/ Z.of_nat (length l) <= i -> py_index l i = Raise IndexError.
Proof.
  intros Hi. unfold py_index. cbv zeta.
  destruct (i <? 0) eqn:Hneg.
  - apply Z.ltb_lt in Hneg.
    replace (i + Z.of_nat (length l) <? 0) with true by (symmetry; apply Z.ltb_lt; lia).
    reflexivity.
  - apply Z.ltb_ge in Hneg.
    replace (Z.of_nat (length l) <=? i) with true by (symmetry; apply Z.leb_le; lia).
    rewrite orb_true_r. reflexivity.
Qed.

(** X5.  The evaluator is symmetric in the colours: what White reads on a
    square is what Black reads on the mirrored square, and conversely, for
    every piece type (valid or not) and every integer square. *)
Theorem piece_value_colour_symmetry (t : option Z) (s : Z) :
  _piece_value WHITE t s = _piece_value BLACK t (square_mirror s)
  /\ _piece_value BLACK t s = _piece_value WHITE t (square_mirror s).
Proof.
  split; [reflexivity|].
  unfold _piece_value. cbn [Bool.eqb WHITE BLACK].
  rewrite square_mirror_involutive. reflexivity.
Qed.

(** X6.  The outcomes of [_piece_value]: KeyError when the piece type is
    absent or not one of the six; for a piece type, a value between -50 and
    50 when the square is in [-64 .. 63] (a negative square counts from the
    end of the table, as Python indexes) and IndexError for any other
    square, for either colour. *)
Theorem piece_value_outcomes (color : bool) (s : Z) :
  _piece_value color None s = Raise KeyError
  /\ (forall t, ~ 1 <= t <= 6 -> _piece_value color (Some t) s = Raise KeyError)
  /\ (forall t, 1 <= t <= 6 -> -64 <= s < 64 ->
        exists v, _piece_value color (Some t) s = Return v /\ -50 <= v <= 50)
  /\ (forall t, 1 <= t <= 6 -> s < -64 \/ 64 <= s ->
        _piece_value color (Some t) s = Raise IndexError).
Proof.
  split; [reflexivity|]. split; [|split].
  - intros t Ht. unfold _piece_value. rewrite (PSQT_key_error t Ht). reflexivity.
  - intros t Ht Hs.
    assert (Hb : piece_value_indexed color t s = true).
    { assert (Hall : forallb (piece_value_indexed color t) all_indices = true).
      { destruct color;
          destruct (piece_type_cases t Ht) as [->|[->|[->|[->|[->| ->]]]]];
          vm_compute; reflexivity. }
      rewrite forallb_forall in Hall. apply Hall, in_all_indices, Hs. }
    unfold piece_value_indexed in Hb.
    destruct (_piece_value color (Some t) s) as [v|e]; [|discriminate].
    exists v. split; [reflexivity|]. apply andb_true_iff in Hb. lia.
  - intros t Ht Hs. unfold _piece_value.
    destruct (PSQT (Some t)) as [table|e] eqn:Htable.
    + cbn [obind]. apply py_index_out_of_range.
      rewrite (PSQT_length t table Htable). change (Z.of_nat 64) with 64.
      destruct (Bool.eqb color BLACK); [exact Hs|].
      pose proof (square_mirror_block s) as Hblock.
      pose proof (Z.div_mod (square_mirror s) 64) as Hm.
      pose proof (Z.mod_pos_bound (square_mirror s) 64) as Hmb.
      pose proof (Z.div_mod s 64) as Hd.
      pose proof (Z.mod_pos_bound s 64) as Hdb.
      lia.
    + exfalso. destruct (piece_type_cases t Ht) as [->|[->|[->|[->|[->| ->]]]]];
        discriminate.
Qed.

Lemma piece_value_outcomes_witness :
  _piece_value BLACK None 12 = Raise KeyError
  /\ _piece_value BLACK (Some 7) 12 = Raise KeyError
  /\ (exists v, _piece_value BLACK (Some KING) (-1) = Return v /\ -50 <= v <= 50)
  /\ _piece_value WHITE (Some KING) 64 = Raise IndexError.
Proof.
  destruct (piece_value_outcomes BLACK 12) as (Hnone & Hkey & _ & _).
  destruct (piece_value_outcomes BLACK (-1)) as (_ & _ & Hvalue & _).
  destruct (piece_value_outcomes WHITE 64) as (_ & _ & _ & Hindex).
  split; [exact Hnone|]. split; [apply Hkey; lia|].
  split; [apply Hvalue; unfold KING; lia|apply Hindex; unfold KING; lia].
Defined.

Section ScorerEdges.
Context {Board Move : Type} {API : ChessAPI Board Move}.

(** X7.  A move whose from-square holds no piece has no score: [_score_move]
    raises TypeError when a pawn of the side not to move stands on a square
    attacked from the destination (the tier subtracts from [None]) and
    KeyError otherwise (the table lookup has no key [None]). *)
Theorem score_move_without_piece (board : Board) (m : Move) :
  piece_type_at board (from_square m) = None ->
  _score_move board m
  = Raise (if Z.land (pieces board PAWN (negb (turn board)))
                     (attacks board (to_square m)) =? 0
           then KeyError else TypeError).
Proof.
  intros Hnone. unfold _score_move, _pawn_attacks, _move_value. rewrite Hnone.
  destruct (Z.land _ _ =? 0); reflexivity.
Qed.

(** X9.  The score of a well-formed move lies between -4603392 and
    461787647, so it fits a signed 32-bit integer. *)
Theorem score_move_fits_32_bits (board : Board) (m : Move) :
  well_formed_move board m = true ->
  exists s, _score_move board m = Return s
            /\ -4603392 <= s <= 461787647
            /\ - 2 ^ 31 <= s < 2 ^ 31.
Proof.
  intros Hwf.
  destruct (score_move_packed board m Hwf) as (f & _ & Hrange & Hs).
  exists (packed f). split; [exact Hs|].
  destruct f as [[[[[p c] e] d] t] s].
  unfold fields_in_range in Hrange. unfold packed.
  change (2 ^ 31) with 2147483648. lia.
Qed.

(** X4.  Two well-formed moves with the same score agree on the source
    square, the destination square, the promotion value and the capture
    flag: moves that differ in a square or in the promotion never tie. *)
Theorem score_move_injective (board : Board) (a b : Move) :
  well_formed_move board a = true -> well_formed_move board b = true ->
  _score_move board a = _score_move board b ->
  from_square a = from_square b
  /\ to_square a = to_square b
  /\ or_zero (promotion a) = or_zero (promotion b)
  /\ is_capture board a = is_capture board b.
Proof.
  intros Hwa Hwb Heq.
  destruct (score_move_packed board a Hwa) as (fa & Hfa & Hra & Hsa).
  destruct (score_move_packed board b Hwb) as (fb & Hfb & Hrb & Hsb).
  rewrite Hsa, Hsb in Heq. injection Heq as Heq.
  unfold score_fields in Hfa, Hfb.
  destruct (_pawn_attacks board a) as [ea|]; [|discriminate].
  destruct (_move_value board a) as [da|]; [|discriminate].
  destruct (_pawn_attacks board b) as [eb|]; [|discriminate].
  destruct (_move_value board b) as [db|]; [|discriminate].
  cbn [obind] in Hfa, Hfb. injection Hfa as <-. injection Hfb as <-.
  unfold fields_in_range in Hra, Hrb. unfold packed in Heq.
  assert (Hcap : int_of_bool (is_capture board a) = int_of_bool (is_capture board b)) by lia.
  repeat split; try lia.
  destruct (is_capture board a), (is_capture board b); simpl in Hcap; congruence || lia.
Qed.

(** X10.  The test for an empty move list in the terminal rule changes
    nothing: on every position the terminal value is [_score_board]. *)
Theorem terminal_value_is_score_board (board : Board) :
  terminal_value board = _score_board board.
Proof.
  unfold terminal_value, _score_board.
  destruct (legal_moves board) as [|m ms]; reflexivity.
Qed.

End ScorerEdges.

Lemma score_move_without_piece_witness :
  _score_move (after_move WHITE) Ra1a5 = Raise KeyError.
Proof.
  exact (score_move_without_piece (after_move WHITE) Ra1a5 eq_refl).
Defined.

Lemma score_move_fits_32_bits_witness :
  exists s, _score_move rook_ending Ra1a5 = Return s
            /\ -4603392 <= s <= 461787647
            /\ - 2 ^ 31 <= s < 2 ^ 31.
Proof.
  apply (score_move_fits_32_bits rook_ending Ra1a5). reflexivity.
Defined.

Lemma score_move_injective_witness :
  from_square tie_first = from_square tie_second
  /\ to_square tie_first = to_square tie_second
  /\ or_zero (promotion tie_first) = or_zero (promotion tie_second)
  /\ is_capture tied_position tie_first = is_capture tied_position tie_second.
Proof.
  apply (score_move_injective tied_position tie_first tie_second); reflexivity.
Defined.

(** * Further properties of the search *)

Section BoardDiscipline.
Context {Board Move : Type} {API : ChessAPI Board Move}.
Open Scope py_scope.

Lemma neutral_nil : neutral (@nil (board_call Move)).
Proof. intros rest pending. reflexivity. Qed.

Lemma neutral_app (t1 t2 : list (board_call Move)) :
  neutral t1 -> neutral t2 -> neutral (t2 ++ t1).
Proof.
  intros H1 H2 rest pending. rewrite <- app_assoc. rewrite H2. apply H1.
Qed.

(** A push, a neutral run and the pop that takes the push back. *)
Lemma neutral_visit (m : Move) (t : list (board_call Move)) :
  neutral t -> neutral (CallPop :: t ++ [CallPush m]).
Proof.
  intros Ht rest pending. cbn [app balanced_from].
  rewrite <- app_assoc. rewrite Ht. reflexivity.
Qed.

Lemma neutral_balanced (t : list (board_call Move)) : neutral t -> balanced t = true.
Proof.
  intros Ht. unfold balanced. specialize (Ht [] O).
  rewrite app_nil_r in Ht. rewrite Ht. reflexivity.
Qed.

Lemma keeps_board_ret {A : Type} (a : A) : keeps_board (@ret Move A a).
Proof.
  intros st a' st' H. injection H as _ <-. exists []. split; [reflexivity|apply neutral_nil].
Qed.

Lemma keeps_board_lift {A : Type} (x : outcome A) : keeps_board (@lift Move A x).
Proof.
  intros st a' st' H. injection H as _ <-. exists []. split; [reflexivity|apply neutral_nil].
Qed.

Lemma keeps_board_bind {A B : Type} (c : Py Move A) (f : A -> Py Move B) :
  keeps_board c -> (forall a, keeps_board (f a)) -> keeps_board (bind c f).
Proof.
  intros Hc Hf st b st' H. unfold bind in H.
  destruct (c st) as [[a|e] st1] eqn:Hrun; [|discriminate].
  destruct (Hc _ _ _ Hrun) as (t1 & Ht1 & Hn1).
  destruct (Hf a _ _ _ H) as (t2 & Ht2 & Hn2).
  exists (t2 ++ t1). split; [rewrite Ht2, Ht1; apply app_assoc|].
  apply neutral_app; assumption.
Qed.

(** One iteration of a loop: the move is pushed, the child searched, the
    move popped, and the loop goes on. *)
Lemma keeps_board_visit {A : Type} (m : Move) (child : Py Move Z) (k : Z -> Py Move A) :
  keeps_board child -> (forall s, keeps_board (k s)) ->
  keeps_board (incr_move_counter ;;; call_push m ;;; s <- child ;; call_pop ;;; k s).
Proof.
  intros Hchild Hk st a st' H.
  unfold bind at 1 2 3 in H. unfold incr_move_counter, call_push in H.
  cbn [move_counter board_calls stdout] in H.
  match type of H with
  | context [child ?st1] => destruct (child st1) as [[s|e] st2] eqn:Hrun
  end; [|discriminate].
  unfold bind at 1 in H. unfold call_pop in H.
  destruct (Hchild _ _ _ Hrun) as (tc & Htc & Hnc).
  destruct (Hk s _ _ _ H) as (tk & Htk & Hnk).
  cbn [board_calls] in Htc, Htk.
  exists (tk ++ (CallPop :: tc ++ [CallPush m])). split.
  - rewrite Htk, Htc. rewrite <- app_assoc. cbn [app]. rewrite <- app_assoc. reflexivity.
  - apply neutral_app; [apply neutral_visit, Hnc|exact Hnk].
Qed.

Lemma max_loop_keeps_board (child : Move -> Z -> Z -> Py Move Z) (moves : list Move) :
  (forall m a b, keeps_board (child m a b)) ->
  forall best_move best_val alpha beta,
    keeps_board (max_loop child moves best_move best_val alpha beta).
Proof.
  intros Hchild. induction moves as [|m rest IH]; intros bm bv alpha beta.
  - apply keeps_board_ret.
  - cbn [max_loop]. apply keeps_board_visit; [apply Hchild|].
    intros s. destruct (beta <? s); [apply keeps_board_ret|apply IH].
Qed.

Lemma min_loop_keeps_board (child : Move -> Z -> Z -> Py Move Z) (moves : list Move) :
  (forall m a b, keeps_board (child m a b)) ->
  forall best_move best_val alpha beta,
    keeps_board (min_loop child moves best_move best_val alpha beta).
Proof.
  intros Hchild. induction moves as [|m rest IH]; intros bm bv alpha beta.
  - apply keeps_board_ret.
  - cbn [min_loop]. apply keeps_board_visit; [apply Hchild|].
    intros s. destruct (s <=? alpha); [apply keeps_board_ret|apply IH].
Qed.

Lemma recur_plies_keeps_board (plies : nat) :
  forall board maximize alpha beta,
    keeps_board (recur_plies plies board maximize alpha beta).
Proof.
  induction plies as [|plies IH]; intros board maximize alpha beta.
  - cbn [recur_plies]. apply keeps_board_bind; [apply keeps_board_lift|].
    intros v. apply keeps_board_ret.
  - cbn [recur_plies].
    destruct (legal_moves board) as [|first rest]; [apply keeps_board_ret|].
    apply keeps_board_bind; [|intros r; apply keeps_board_ret].
    assert (Hchild : forall m a b,
               keeps_board (r <- recur_plies plies (push board m) (negb maximize) a b ;;
                            ret (snd r))).
    { intros m a b. apply keeps_board_bind; [apply IH|]. intros r. apply keeps_board_ret. }
    destruct maximize; [apply max_loop_keeps_board|apply min_loop_keeps_board]; exact Hchild.
Qed.

Lemma search_keeps_board (cfg : Config) (rnd : nat) (board : Board) (offered : bool) :
  keeps_board (search cfg rnd board offered).
Proof.
  unfold search. destruct (RANDOM cfg).
  - apply keeps_board_bind; [apply keeps_board_lift|]. intros m. apply keeps_board_ret.
  - apply keeps_board_bind.
    + destruct (MAX_DEPTH cfg =? -1).
      * apply keeps_board_bind; [apply keeps_board_lift|]. intros l.
        apply keeps_board_bind; [apply keeps_board_lift|]. intros m. apply keeps_board_ret.
      * unfold _ab_search, _recur.
        apply keeps_board_bind; [apply recur_plies_keeps_board|].
        intros r. apply keeps_board_ret.
    + intros best. intros st a st' H.
      unfold bind, print_move_counter, reset_move_counter, ret in H.
      injection H as _ <-. exists []. split; [reflexivity|apply neutral_nil].
Qed.

End BoardDiscipline.

(** X1.  Make and unmake are balanced: when the recursive search returns,
    and when the entry point returns, the calls it has made on the board are
    a run in which every push is taken back by a later pop, last pushed first
    popped, and no pop comes without its push; this holds on the pruning
    exits as well. *)
Theorem pushes_and_pops_balance {Board Move : Type} {API : ChessAPI Board Move} :
  (forall depth (board : Board) maximize alpha beta (st st' : EngineState Move) r,
      _recur depth board maximize alpha beta st = (Return r, st') ->
      exists trace, board_calls st' = trace ++ board_calls st /\ balanced trace = true)
  /\ (forall cfg rnd (board : Board) offered (st st' : EngineState Move) res,
         search cfg rnd board offered st = (Return res, st') ->
         exists trace, board_calls st' = trace ++ board_calls st /\ balanced trace = true).
Proof.
  split.
  - intros depth board maximize alpha beta st st' r Hrun.
    destruct (recur_plies_keeps_board (Z.to_nat depth) board maximize alpha beta st r st' Hrun)
      as (trace & Htrace & Hneutral).
    exists trace. split; [exact Htrace|apply neutral_balanced, Hneutral].
  - intros cfg rnd board offered st st' res Hrun.
    destruct (search_keeps_board cfg rnd board offered st res st' Hrun)
      as (trace & Htrace & Hneutral).
    exists trace. split; [exact Htrace|apply neutral_balanced, Hneutral].
Qed.

Lemma pushes_and_pops_balance_witness :
  exists trace,
    board_calls (snd (_recur 3 small_game true NEG_INF INF (initial_state SMove)))
    = trace ++ board_calls (initial_state SMove)
    /\ balanced trace = true.
Proof.
  destruct (@pushes_and_pops_balance SBoard SMove synthetic) as [Hrecur _].
  apply (Hrecur 3 small_game true NEG_INF INF (initial_state SMove) _
           (Some (smove 0 8 0), NEG_INF)).
  vm_compute. reflexivity.
Defined.

Section ChosenMove.
Context {Board Move : Type} {API : ChessAPI Board Move}.
Open Scope py_scope.

Lemma py_index_In {A : Type} (l : list A) (i : Z) (x : A) :
  py_index l i = Return x -> In x l.
Proof.
  unfold py_index. cbv zeta. intros H.
  destruct (_ || _); [discriminate|].
  destruct (nth_error l _) as [y|] eqn:Hnth; [|discriminate].
  injection H as <-. apply (nth_error_In _ _ Hnth).
Qed.

Lemma random_choice_In {A : Type} (rnd : nat) (l : list A) (x : A) :
  random_choice rnd l = Return x -> In x l.
Proof.
  unfold random_choice. intros H. destruct l as [|y l]; [discriminate|].
  destruct (nth_error (y :: l) _) as [z|] eqn:Hnth; [|discriminate].
  injection H as <-. apply (nth_error_In _ _ Hnth).
Qed.

Lemma py_sorted_In {A : Type} (key : A -> outcome Z) (reverse : bool) (l sorted : list A)
    (x : A) :
  py_sorted key reverse l = Return sorted -> In x sorted -> In x l.
Proof.
  unfold py_sorted. intros H Hx.
  destruct (traverse key l) as [keys|e]; [|discriminate].
  cbn [obind] in H. injection H as <-.
  apply in_map_iff in Hx. destruct Hx as ((k & y) & Hy & Hin). simpl in Hy. subst y.
  assert (Hc : In (k, x) (combine keys l)).
  { destruct reverse.
    - apply in_rev in Hin. apply (proj1 (stable_sort_In _ _)) in Hin.
      apply in_rev in Hin. exact Hin.
    - apply (proj1 (stable_sort_In _ _)) in Hin. exact Hin. }
  apply (in_combine_r _ _ _ _ Hc).
Qed.

Lemma max_loop_best (child : Move -> Z -> Z -> Py Move Z) (moves : list Move) :
  forall best_move best_val alpha beta st best v st',
    max_loop child moves best_move best_val alpha beta st = (Return (best, v), st') ->
    best = best_move \/ In best moves.
Proof.
  induction moves as [|m rest IH]; intros bm bv alpha beta st best v st' H.
  - injection H as <- _ _. left. reflexivity.
  - cbn [max_loop] in H. unfold bind at 1 2 3 in H.
    unfold incr_move_counter, call_push in H.
    match type of H with
    | context [child m alpha beta ?st1] =>
        destruct (child m alpha beta st1) as [[s|e] st2]
    end; [|discriminate].
    unfold bind at 1 in H. unfold call_pop in H.
    destruct (beta <? s).
    + injection H as <- _ _. destruct (s >? bv); [right; left|left]; reflexivity.
    + destruct (IH _ _ _ _ _ _ _ _ H) as [->|Hin]; [|right; right; exact Hin].
      destruct (s >? bv); [right; left|left]; reflexivity.
Qed.

Lemma min_loop_best (child : Move -> Z -> Z -> Py Move Z) (moves : list Move) :
  forall best_move best_val alpha beta st best v st',
    min_loop child moves best_move best_val alpha beta st = (Return (best, v), st') ->
    best = best_move \/ In best moves.
Proof.
  induction moves as [|m rest IH]; intros bm bv alpha beta st best v st' H.
  - injection H as <- _ _. left. reflexivity.
  - cbn [min_loop] in H. unfold bind at 1 2 3 in H.
    unfold incr_move_counter, call_push in H.
    match type of H with
    | context [child m alpha beta ?st1] =>
        destruct (child m alpha beta st1) as [[s|e] st2]
    end; [|discriminate].
    unfold bind at 1 in H. unfold call_pop in H.
    destruct (s <=? alpha).
    + injection H as <- _ _. destruct (s <? bv); [right; left|left]; reflexivity.
    + destruct (IH _ _ _ _ _ _ _ _ H) as [->|Hin]; [|right; right; exact Hin].
      destruct (s <? bv); [right; left|left]; reflexivity.
Qed.

(** The move [_recur] returns: a legal move at an interior node with legal
    moves, no move at a terminal node or a node without legal moves. *)
Lemma recur_move (depth : Z) (board : Board) (maximize : bool) (alpha beta : Z)
    (st st' : EngineState Move) (best : option Move) (v : Z) :
  _recur depth board maximize alpha beta st = (Return (best, v), st') ->
  match best with
  | Some m => In m (legal_moves board)
  | None => depth <= 0 \/ legal_moves board = []
  end.
Proof.
  rewrite _recur_unfold. destruct (depth <=? 0) eqn:Hd.
  - apply Z.leb_le in Hd. unfold bind, lift, ret.
    destruct (terminal_value board); [|discriminate].
    intros H. injection H as <- _ _. left. exact Hd.
  - cbv zeta. destruct (legal_moves board) as [|first rest] eqn:Hmoves.
    + intros H. injection H as <- _ _. right. reflexivity.
    + unfold bind at 1.
      destruct maximize.
      * match goal with
        | |- context [max_loop ?c ?l ?bm ?bv ?a ?b st] =>
            destruct (max_loop c l bm bv a b st) as [[[bm' v']|e] st1] eqn:Hloop
        end; [|discriminate].
        intros H. injection H as <- _ _. cbn [fst].
        destruct (max_loop_best _ _ _ _ _ _ _ _ _ _ Hloop) as [->|Hin];
          [left; reflexivity|exact Hin].
      * match goal with
        | |- context [min_loop ?c ?l ?bm ?bv ?a ?b st] =>
            destruct (min_loop c l bm bv a b st) as [[[bm' v']|e] st1] eqn:Hloop
        end; [|discriminate].
        intros H. injection H as <- _ _. cbn [fst].
        destruct (min_loop_best _ _ _ _ _ _ _ _ _ _ Hloop) as [->|Hin];
          [left; reflexivity|exact Hin].
Qed.

(** X2.  Whenever the entry point returns, in any mode, the result carries
    no ponder move and the draw-offer flag it was given, and its move is a
    legal move of the position or is absent; it is absent only in full-search
    mode, when the depth is not positive or the position has no legal
    moves. *)
Theorem search_result (cfg : Config) (rnd : nat) (board : Board) (offered : bool)
    (st st' : EngineState Move) (res : PlayResult Move) :
  search cfg rnd board offered st = (Return res, st') ->
  ponder res = None
  /\ draw_offered res = offered
  /\ match move res with
     | Some m => In m (legal_moves board)
     | None => RANDOM cfg = false /\ MAX_DEPTH cfg <> -1
               /\ (MAX_DEPTH cfg <= 0 \/ legal_moves board = [])
     end.
Proof.
  unfold search. destruct (RANDOM cfg) eqn:Hrandom.
  - unfold bind, lift, ret.
    destruct (random_choice rnd (legal_moves board)) as [m|e] eqn:Hchoice; [|discriminate].
    intros H. injection H as <- _. cbn. repeat split.
    apply (random_choice_In _ _ _ Hchoice).
  - unfold bind at 1.
    destruct (MAX_DEPTH cfg =? -1) eqn:Hmode.
    + unfold bind at 1. unfold lift at 1.
      destruct (py_sorted (_score_move board) true (legal_moves board)) as [sorted|e] eqn:Hsorted;
        [|discriminate].
      unfold bind at 1. unfold lift at 1.
      destruct (py_index sorted 0) as [m|e] eqn:Hindex; [|discriminate].
      unfold ret at 1. unfold bind, print_move_counter, reset_move_counter, ret.
      intros H. injection H as <- _. cbn. repeat split.
      apply (py_sorted_In _ _ _ _ _ Hsorted). apply (py_index_In _ _ _ Hindex).
    + apply Z.eqb_neq in Hmode.
      unfold _ab_search. unfold bind at 1.
      destruct (_recur (MAX_DEPTH cfg) board true NEG_INF INF st) as [[[best v]|e] st1] eqn:Hrun;
        [|discriminate].
      unfold ret at 1. unfold bind, print_move_counter, reset_move_counter, ret.
      intros H. injection H as <- _. cbn.
      pose proof (recur_move _ _ _ _ _ _ _ _ _ Hrun) as Hmove.
      repeat split. destruct best as [m|]; [exact Hmove|].
      repeat split; assumption.
Qed.

End ChosenMove.

Lemma search_result_witness :
  ponder {| move := Some (smove 0 24 2); ponder := None; draw_offered := true |} = None
  /\ draw_offered {| move := Some (smove 0 24 2); ponder := None; draw_offered := true |} = true
  /\ In (smove 0 24 2) (legal_moves small_game).
Proof.
  apply (search_result {| RANDOM := false; MAX_DEPTH := 2 |} 0 small_game true
           (initial_state SMove) after_first_search
           {| move := Some (smove 0 24 2); ponder := None; draw_offered := true |}).
  vm_compute. reflexivity.
Defined.

Section OptimalMove.
Context {Board Move : Type} {API : ChessAPI Board Move}.
Open Scope py_scope.

(** The loop of the root: the window is [(best_val, INF)] throughout, and the
    move kept is one whose value is the value kept. *)
Lemma max_loop_root (child : Move -> Z -> Z -> Py Move Z) (cm : Move -> Z)
    (moves : list Move) :
  child_sound child cm moves ->
  (forall m, In m moves -> cm m <= INF) ->
  forall best_move best_val st,
    NEG_INF <= best_val -> best_val <= INF ->
    exists best v st',
      max_loop child moves best_move best_val best_val INF st = (Return (best, v), st')
      /\ ((best = best_move /\ v = best_val) \/ (In best moves /\ cm best = v)).
Proof.
  induction moves as [|c rest IH]; intros Hchild Hcm bm bv st Hlo Hhi.
  - exists bm, bv, st. split; [reflexivity|]. left. split; reflexivity.
  - destruct (Hchild c (or_introl eq_refl) bv INF
                {| move_counter := move_counter st + 1;
                   board_calls := CallPush c :: board_calls st;
                   stdout := stdout st |} Hlo Hhi (Z.le_refl INF))
      as (s & st1 & Hrun & HA & HB & HC).
    pose proof (Hcm c (or_introl eq_refl)) as Hc.
    cbn [max_loop]. unfold bind at 1 2 3. unfold incr_move_counter, call_push.
    cbn [move_counter board_calls stdout]. rewrite Hrun.
    unfold bind at 1. unfold call_pop.
    destruct (INF <? s) eqn:Hbreak.
    + apply Z.ltb_lt in Hbreak. exfalso. lia.
    + apply Z.ltb_ge in Hbreak.
      assert (Hrest : forall m, In m rest -> cm m <= INF)
        by (intros m Hm; apply Hcm; right; exact Hm).
      destruct (s >? bv) eqn:Hgt.
      * apply Z.gtb_lt in Hgt.
        replace (Z.max s bv) with s by lia.
        destruct (IH (child_sound_tail child cm c rest Hchild) Hrest c s
                    {| move_counter := move_counter st1;
                       board_calls := CallPop :: board_calls st1;
                       stdout := stdout st1 |})
          as (best & v & st' & Hloop & Hbest); try lia.
        exists best, v, st'. split; [exact Hloop|].
        destruct Hbest as [[-> ->]|[Hin Hv]].
        -- right. split; [left; reflexivity|]. lia.
        -- right. split; [right; exact Hin|exact Hv].
      * rewrite Z.gtb_ltb in Hgt. apply Z.ltb_ge in Hgt.
        replace (Z.max bv bv) with bv by lia.
        destruct (IH (child_sound_tail child cm c rest Hchild) Hrest bm bv
                    {| move_counter := move_counter st1;
                       board_calls := CallPop :: board_calls st1;
                       stdout := stdout st1 |})
          as (best & v & st' & Hloop & Hbest); try lia.
        exists best, v, st'. split; [exact Hloop|].
        destruct Hbest as [[-> ->]|[Hin Hv]].
        -- left. split; reflexivity.
        -- right. split; [right; exact Hin|exact Hv].
Qed.

Lemma minimax_plies_no_moves (plies : nat) (board : Board) (maximize : bool) :
  legal_moves board = [] -> minimax_plies plies board maximize = Return NEG_INF.
Proof.
  intros Hnone. destruct plies; cbn [minimax_plies].
  - unfold terminal_value. rewrite Hnone. reflexivity.
  - rewrite Hnone. reflexivity.
Qed.

(** At the root of a search of at least one ply, on a position with legal
    moves: the move returned is legal, the position it leads to has the
    minimax value the search returns, and no legal move leads to a position
    of greater value. *)
Lemma root_choice (plies : nat) (board : Board) (st : EngineState Move) :
  well_formed_to (S plies) board = true -> legal_moves board <> [] ->
  exists best v st',
    recur_plies (S plies) board true NEG_INF INF st = (Return (Some best, v), st')
    /\ In best (legal_moves board)
    /\ minimax_plies (S plies) board true = Return v
    /\ minimax_plies plies (push board best) false = Return v
    /\ forall m, In m (legal_moves board) ->
         exists w, minimax_plies plies (push board m) false = Return w
                   /\ NEG_INF <= w <= v.
Proof.
  intros Hwf Hne. pose proof sentinels_ordered as Hsent.
  set (cm := fun m => value_of (minimax_plies plies (push board m) false)).
  assert (Hcm : forall m, In m (legal_moves board) ->
            minimax_plies plies (push board m) false = Return (cm m)
            /\ NEG_INF <= cm m <= INF).
  { intros m Hm.
    destruct (recur_plies_sound plies (push board m) false
                (well_formed_to_push plies board m Hwf Hm)) as (mm & Hmm & Hbound & _).
    unfold cm. rewrite Hmm. split; [reflexivity|exact Hbound]. }
  assert (Hchild : child_sound
            (fun m a b => r <- recur_plies plies (push board m) (negb true) a b ;; ret (snd r))
            cm (legal_moves board)).
  { intros m Hm a b st0 Ha Hab Hb.
    destruct (recur_plies_sound plies (push board m) false
                (well_formed_to_push plies board m Hwf Hm)) as (mm & Hmm & _ & Hrun).
    destruct (Hrun a b st0 Ha Hab Hb) as (best & v & st' & Hv & Hspec).
    exists v, st'. split.
    - cbn [negb]. unfold bind, ret. rewrite Hv. reflexivity.
    - unfold cm. rewrite Hmm. exact Hspec. }
  destruct (recur_plies_sound (S plies) board true Hwf) as (mm & Hmm & Hbound & Hrun).
  destruct (Hrun NEG_INF INF st) as (best0 & v & st' & Hv & Hspec); try lia.
  pose proof (window_spec_full mm v Hbound Hspec) as ->.
  destruct (legal_moves board) as [|first rest] eqn:Hmoves; [congruence|].
  destruct (max_loop_root _ cm (first :: rest) Hchild (fun m Hm => proj2 (proj2 (Hcm m Hm)))
              first NEG_INF st (Z.le_refl NEG_INF)) as (best & v' & st'' & Hloop & Hbest);
    [lia|].
  assert (Hmax : mm = greatest (map cm (first :: rest))).
  { cbn [minimax_plies] in Hmm. rewrite Hmoves in Hmm. cbv iota in Hmm.
    rewrite (traverse_map _ cm) in Hmm by (intros m Hm; apply Hcm, Hm).
    cbn [obind] in Hmm. injection Hmm as <-. reflexivity. }
  assert (Hne' : map cm (first :: rest) <> []) by (simpl; discriminate).
  destruct (greatest_spec (map cm (first :: rest)) Hne') as [_ Hle].
  assert (Hsame : recur_plies (S plies) board true NEG_INF INF st
                  = (Return (Some best, v'), st'')).
  { cbn [recur_plies]. rewrite Hmoves. cbv iota.
    unfold bind at 1. rewrite Hloop. reflexivity. }
  rewrite Hsame in Hv. injection Hv as _ <- _.
  assert (Hall : forall m, In m (first :: rest) -> cm m <= v').
  { intros m Hm. rewrite Hmax. apply Hle, in_map, Hm. }
  assert (Hchosen : In best (first :: rest) /\ cm best = v').
  { destruct Hbest as [[-> ->]|Hbest]; [|exact Hbest].
    split; [left; reflexivity|].
    pose proof (Hall first (or_introl eq_refl)).
    pose proof (proj2 (Hcm first (or_introl eq_refl))). lia. }
  exists best, v', st''. split; [exact Hsame|].
  split; [apply Hchosen|]. split; [exact Hmm|]. split.
  - destruct Hchosen as [Hin <-]. apply Hcm, Hin.
  - intros m Hm. exists (cm m). split; [apply Hcm, Hm|].
    split; [apply Hcm, Hm|apply Hall, Hm].
Qed.

(** X3.  The move the full search chooses is a best move: for a depth of at
    least 1, on a position with legal moves that is well formed to the depth,
    [_ab_search] returns a legal move, and the minimax value of the position
    after it, to the remaining depth and with the opponent minimizing, is the
    minimax value of the root. *)
Theorem ab_search_chooses_best_move (depth : Z) (board : Board) (st : EngineState Move) :
  1 <= depth ->
  well_formed_to (Z.to_nat depth) board = true -> legal_moves board <> [] ->
  exists best v st',
    _ab_search board depth st = (Return (Some best), st')
    /\ In best (legal_moves board)
    /\ minimax depth board true = Return v
    /\ minimax (depth - 1) (push board best) false = Return v.
Proof.
  intros Hd Hwf Hne. unfold _ab_search, _recur, minimax.
  replace (Z.to_nat depth) with (S (Z.to_nat (depth - 1))) in * by lia.
  destruct (root_choice (Z.to_nat (depth - 1)) board st Hwf Hne)
    as (best & v & st' & Hrun & Hin & Hroot & Hafter & _).
  exists best, v, st'. split; [unfold bind; rewrite Hrun; reflexivity|].
  split; [exact Hin|]. split; [exact Hroot|exact Hafter].
Qed.

(** X11.  The full search never prefers leaving the opponent without legal
    moves: the value of such a position is the negative sentinel for
    whichever side, so the move chosen leads to one only when every legal
    move leads to a position whose minimax value is the negative sentinel. *)
Theorem ab_search_stalls_only_if_all (depth : Z) (board : Board) (st : EngineState Move) :
  1 <= depth ->
  well_formed_to (Z.to_nat depth) board = true -> legal_moves board <> [] ->
  exists best st',
    _ab_search board depth st = (Return (Some best), st')
    /\ (legal_moves (push board best) = [] ->
        forall m, In m (legal_moves board) ->
                  minimax (depth - 1) (push board m) false = Return NEG_INF).
Proof.
  intros Hd Hwf Hne. unfold _ab_search, _recur, minimax.
  replace (Z.to_nat depth) with (S (Z.to_nat (depth - 1))) in * by lia.
  destruct (root_choice (Z.to_nat (depth - 1)) board st Hwf Hne)
    as (best & v & st' & Hrun & Hin & _ & Hafter & Hall).
  exists best, st'. split; [unfold bind; rewrite Hrun; reflexivity|].
  intros Hstall m Hm.
  rewrite (minimax_plies_no_moves _ _ false Hstall) in Hafter. injection Hafter as <-.
  destruct (Hall m Hm) as (w & Hw & Hbound).
  rewrite Hw. f_equal. lia.
Qed.

End OptimalMove.

Lemma ab_search_chooses_best_move_witness :
  exists best v st',
    _ab_search small_game 2 (initial_state SMove) = (Return (Some best), st')
    /\ In best (legal_moves small_game)
    /\ minimax 2 small_game true = Return v
    /\ minimax (2 - 1) (push small_game best) false = Return v.
Proof.
  apply (ab_search_chooses_best_move 2 small_game (initial_state SMove)).
  - lia.
  - vm_compute. reflexivity.
  - simpl. discriminate.
Defined.

Lemma ab_search_stalls_only_if_all_witness :
  exists best st',
    _ab_search one_move 1 (initial_state SMove) = (Return (Some best), st')
    /\ (legal_moves (push one_move best) = [] ->
        forall m, In m (legal_moves one_move) ->
                  minimax (1 - 1) (push one_move m) false = Return NEG_INF).
Proof.
  apply (ab_search_stalls_only_if_all 1 one_move (initial_state SMove)).
  - lia.
  - vm_compute. reflexivity.
  - simpl. discriminate.
Defined.

Section PushCount.
Context {Board Move : Type} {API : ChessAPI Board Move}.
Open Scope py_scope.

Lemma pushes_at_most_ret {A : Type} (a : A) : pushes_at_most 0 (@ret Move A a).
Proof. intros st r st' H. injection H as _ <-. lia. Qed.

Lemma pushes_at_most_lift {A : Type} (x : outcome A) : pushes_at_most 0 (@lift Move A x).
Proof. intros st r st' H. injection H as _ <-. lia. Qed.

Lemma pushes_at_most_bind {A B : Type} (n1 n2 : Z) (c : Py Move A) (f : A -> Py Move B) :
  0 <= n2 ->
  pushes_at_most n1 c -> (forall a, pushes_at_most n2 (f a)) ->
  pushes_at_most (n1 + n2) (bind c f).
Proof.
  intros Hn2 Hc Hf st r st' H. unfold bind in H.
  destruct (c st) as [[a|e] st1] eqn:Hrun.
  - pose proof (Hc _ _ _ Hrun). pose proof (Hf a _ _ _ H). lia.
  - injection H as _ <-. pose proof (Hc _ _ _ Hrun). lia.
Qed.

Lemma max_loop_pushes (child : Move -> Z -> Z -> Py Move Z) (size : Move -> Z)
    (moves : list Move) :
  (forall m a b, pushes_at_most (size m) (child m a b)) ->
  forall best_move best_val alpha beta,
    pushes_at_most (fold_right (fun m acc => 1 + size m + acc) 0 moves)
                   (max_loop child moves best_move best_val alpha beta).
Proof.
  intros Hchild. induction moves as [|m rest IH]; intros bm bv alpha beta.
  - apply pushes_at_most_ret.
  - intros st r st' H. cbn [max_loop] in H. cbn [fold_right].
    pose proof (IH bm bv alpha beta st _ _ (surjective_pairing _)) as Hrest.
    unfold bind at 1 2 3 in H. unfold incr_move_counter, call_push in H.
    cbn [move_counter board_calls stdout] in H.
    match type of H with
    | context [child m alpha beta ?st1] =>
        destruct (child m alpha beta st1) as [[s|e] st2] eqn:Hrun
    end.
    + pose proof (Hchild _ _ _ _ _ _ Hrun) as Hc. cbn [board_calls pushes] in Hc.
      unfold bind at 1 in H. unfold call_pop in H.
      destruct (beta <? s).
      * injection H as _ <-. cbn [board_calls pushes]. lia.
      * pose proof (IH _ _ _ _ _ _ _ H) as Hk. cbn [board_calls pushes] in Hk. lia.
    + injection H as _ <-.
      pose proof (Hchild _ _ _ _ _ _ Hrun) as Hc. cbn [board_calls pushes] in Hc. lia.
Qed.

Lemma min_loop_pushes (child : Move -> Z -> Z -> Py Move Z) (size : Move -> Z)
    (moves : list Move) :
  (forall m a b, pushes_at_most (size m) (child m a b)) ->
  forall best_move best_val alpha beta,
    pushes_at_most (fold_right (fun m acc => 1 + size m + acc) 0 moves)
                   (min_loop child moves best_move best_val alpha beta).
Proof.
  intros Hchild. induction moves as [|m rest IH]; intros bm bv alpha beta.
  - apply pushes_at_most_ret.
  - intros st r st' H. cbn [min_loop] in H. cbn [fold_right].
    pose proof (IH bm bv alpha beta st _ _ (surjective_pairing _)) as Hrest.
    unfold bind at 1 2 3 in H. unfold incr_move_counter, call_push in H.
    cbn [move_counter board_calls stdout] in H.
    match type of H with
    | context [child m alpha beta ?st1] =>
        destruct (child m alpha beta st1) as [[s|e] st2] eqn:Hrun
    end.
    + pose proof (Hchild _ _ _ _ _ _ Hrun) as Hc. cbn [board_calls pushes] in Hc.
      unfold bind at 1 in H. unfold call_pop in H.
      destruct (s <=? alpha).
      * injection H as _ <-. cbn [board_calls pushes]. lia.
      * pose proof (IH _ _ _ _ _ _ _ H) as Hk. cbn [board_calls pushes] in Hk. lia.
    + injection H as _ <-.
      pose proof (Hchild _ _ _ _ _ _ Hrun) as Hc. cbn [board_calls pushes] in Hc. lia.
Qed.

Lemma recur_plies_pushes (plies : nat) :
  forall board maximize alpha beta,
    pushes_at_most (tree_size plies board) (recur_plies plies board maximize alpha beta).
Proof.
  induction plies as [|plies IH]; intros board maximize alpha beta.
  - cbn [recur_plies tree_size]. change 0 with (0 + 0).
    apply pushes_at_most_bind; [lia|apply pushes_at_most_lift|].
    intros v. apply pushes_at_most_ret.
  - cbn [recur_plies tree_size].
    destruct (legal_moves board) as [|first rest]; [apply pushes_at_most_ret|].
    match goal with
    | |- pushes_at_most ?n _ => replace n with (n + 0) by lia
    end.
    apply pushes_at_most_bind; [lia| |intros r; apply pushes_at_most_ret].
    assert (Hchild : forall m a b,
               pushes_at_most (tree_size plies (push board m))
                 (r <- recur_plies plies (push board m) (negb maximize) a b ;; ret (snd r))).
    { intros m a b.
      replace (tree_size plies (push board m)) with (tree_size plies (push board m) + 0) by lia.
      apply pushes_at_most_bind; [lia|apply IH|]. intros r. apply pushes_at_most_ret. }
    destruct maximize.
    + apply (max_loop_pushes _ (fun m => tree_size plies (push board m)) _ Hchild).
    + apply (min_loop_pushes _ (fun m => tree_size plies (push board m)) _ Hchild).
Qed.

(** A loop that ends with a value not above [beta] has visited every move. *)
Lemma max_loop_visits_all (child : Move -> Z -> Z -> Py Move Z) (size : Move -> Z)
    (moves : list Move) :
  (forall m a b, pushes_at_most (size m) (child m a b)) ->
  forall best_move best_val alpha beta st best v st',
    max_loop child moves best_move best_val alpha beta st = (Return (best, v), st') ->
    best_val <= v
    /\ (v <= beta ->
        Z.of_nat (length moves) <= pushes (board_calls st') - pushes (board_calls st)).
Proof.
  intros Hchild. induction moves as [|m rest IH]; intros bm bv alpha beta st best v st' H.
  - injection H as _ <- <-. cbn [length]. lia.
  - cbn [max_loop] in H.
    unfold bind at 1 2 3 in H. unfold incr_move_counter, call_push in H.
    cbn [move_counter board_calls stdout] in H.
    match type of H with
    | context [child m alpha beta ?st1] =>
        destruct (child m alpha beta st1) as [[s|e] st2] eqn:Hrun
    end; [|discriminate].
    pose proof (Hchild _ _ _ _ _ _ Hrun) as Hc. cbn [board_calls pushes] in Hc.
    unfold bind at 1 in H. unfold call_pop in H.
    assert (Hbv : bv <= (if s >? bv then s else bv) /\ s <= (if s >? bv then s else bv)).
    { destruct (s >? bv) eqn:Hgt;
        [apply Z.gtb_lt in Hgt|rewrite Z.gtb_ltb in Hgt; apply Z.ltb_ge in Hgt]; lia. }
    destruct (beta <? s) eqn:Hbreak.
    + apply Z.ltb_lt in Hbreak. injection H as _ <- <-. split; lia.
    + destruct (IH _ _ _ _ _ _ _ _ H) as [Hmono Hall]. cbn [board_calls pushes] in Hall.
      split; [lia|]. intros Hv. specialize (Hall Hv).
      change (length (m :: rest)) with (S (length rest)). lia.
Qed.

Lemma tree_size_one (board : Board) :
  tree_size 1 board = Z.of_nat (length (legal_moves board)).
Proof.
  cbn [tree_size]. induction (legal_moves board) as [|m l IH]; [reflexivity|].
  cbn [fold_right length]. rewrite IH. lia.
Qed.

End PushCount.

(** X8.  However a run of the recursive search ends, the pushes it has made
    are at most the moves of the whole game tree of the position down to the
    depth, and the counter has grown by the same number: pruning only ever
    saves visits. *)
Theorem recur_pushes_bounded {Board Move : Type} {API : ChessAPI Board Move}
    (depth : Z) (board : Board) (maximize : bool) (alpha beta : Z)
    (st st' : EngineState Move) (r : outcome (option Move * Z)) :
  _recur depth board maximize alpha beta st = (r, st') ->
  0 <= pushes (board_calls st') - pushes (board_calls st) <= tree_size (Z.to_nat depth) board
  /\ move_counter st' - move_counter st
     = pushes (board_calls st') - pushes (board_calls st).
Proof.
  intros Hrun. split.
  - apply (recur_plies_pushes (Z.to_nat depth) board maximize alpha beta st r st' Hrun).
  - apply (recur_plies_in_step (Z.to_nat depth) board maximize alpha beta st r st' Hrun).
Qed.

Lemma recur_pushes_bounded_witness :
  0 <= pushes (board_calls (snd (_recur 3 small_game true NEG_INF INF (initial_state SMove))))
       - pushes (board_calls (initial_state SMove))
    <= tree_size (Z.to_nat 3) small_game
  /\ move_counter (snd (_recur 3 small_game true NEG_INF INF (initial_state SMove)))
     - move_counter (initial_state SMove)
     = pushes (board_calls (snd (_recur 3 small_game true NEG_INF INF (initial_state SMove))))
       - pushes (board_calls (initial_state SMove)).
Proof.
  apply (recur_pushes_bounded 3 small_game true NEG_INF INF (initial_state SMove) _
           (fst (_recur 3 small_game true NEG_INF INF (initial_state SMove)))).
  apply surjective_pairing.
Defined.

(** X12.  A full search of depth at least 1, entered with the counter at
    zero on a position well formed to the depth, returns and prints a count
    that is at least the number of legal moves of the position (the root is
    never pruned) and at most the size of the game tree; at depth 1 it is
    exactly the number of legal moves. *)
Theorem full_search_count {Board Move : Type} {API : ChessAPI Board Move}
    (cfg : Config) (rnd : nat) (board : Board) (offered : bool) (st : EngineState Move) :
  RANDOM cfg = false -> 1 <= MAX_DEPTH cfg ->
  well_formed_to (Z.to_nat (MAX_DEPTH cfg)) board = true ->
  move_counter st = 0 ->
  exists res st' n,
    search cfg rnd board offered st = (Return res, st')
    /\ stdout st' = n :: stdout st
    /\ Z.of_nat (length (legal_moves board)) <= n
    /\ n <= tree_size (Z.to_nat (MAX_DEPTH cfg)) board
    /\ (MAX_DEPTH cfg = 1 -> n = Z.of_nat (length (legal_moves board))).
Proof.
  intros Hrandom Hdepth Hwf Hzero. pose proof sentinels_ordered as Hsent.
  destruct (recur_plies_sound (Z.to_nat (MAX_DEPTH cfg)) board true Hwf)
    as (mm & Hmm & Hbound & Hrun).
  destruct (Hrun NEG_INF INF st) as (best & v & st1 & Hv & Hspec); try lia.
  pose proof (window_spec_full mm v Hbound Hspec) as ->.
  pose proof (recur_plies_pushes _ _ _ _ _ _ _ _ Hv) as Hupper.
  pose proof (recur_plies_in_step _ _ _ _ _ _ _ _ Hv) as [Hstep Hout].
  assert (Hlower : Z.of_nat (length (legal_moves board))
                   <= pushes (board_calls st1) - pushes (board_calls st)).
  { replace (Z.to_nat (MAX_DEPTH cfg)) with (S (Z.to_nat (MAX_DEPTH cfg - 1))) in Hv by lia.
    cbn [recur_plies] in Hv.
    destruct (legal_moves board) as [|first rest] eqn:Hmoves.
    - injection Hv as _ _ <-. cbn [length]. lia.
    - unfold bind at 1 in Hv.
      match type of Hv with
      | context [max_loop ?c ?l ?bm ?bv ?a ?b st] =>
          destruct (max_loop c l bm bv a b st) as [[[bm' v']|e] st2] eqn:Hloop
      end; [|discriminate].
      injection Hv as _ <- <-.
      refine (proj2 (max_loop_visits_all _
                       (fun m => tree_size (Z.to_nat (MAX_DEPTH cfg - 1)) (push board m))
                       _ _ _ _ _ _ _ _ _ _ Hloop) _); [|cbn [snd] in Hbound; lia].
      intros m a b.
      replace (tree_size (Z.to_nat (MAX_DEPTH cfg - 1)) (push board m))
        with (tree_size (Z.to_nat (MAX_DEPTH cfg - 1)) (push board m) + 0) by lia.
      apply pushes_at_most_bind; [lia|apply recur_plies_pushes|].
      intros r. apply pushes_at_most_ret. }
  eexists _, _, (pushes (board_calls st1) - pushes (board_calls st)). split.
  - unfold search. rewrite Hrandom.
    replace (MAX_DEPTH cfg =? -1) with false by (symmetry; apply Z.eqb_neq; lia).
    unfold _ab_search, _recur. unfold bind at 1 2. rewrite Hv.
    unfold ret at 1. unfold bind, print_move_counter, reset_move_counter, ret.
    reflexivity.
  - cbn [stdout]. split; [rewrite Hout; f_equal; lia|]. split; [exact Hlower|]. split; [lia|].
    intros Hone. rewrite Hone in Hupper. change (Z.to_nat 1) with 1%nat in Hupper.
    rewrite tree_size_one in Hupper. lia.
Qed.

Lemma full_search_count_witness :
  exists res st' n,
    search {| RANDOM := false; MAX_DEPTH := 1 |} 0 small_game false (initial_state SMove)
    = (Return res, st')
    /\ stdout st' = n :: stdout (initial_state SMove)
    /\ Z.of_nat (length (legal_moves small_game)) <= n
    /\ n <= tree_size (Z.to_nat 1) small_game
    /\ (1 = 1 -> n = Z.of_nat (length (legal_moves small_game))).
Proof.
  apply (full_search_count {| RANDOM := false; MAX_DEPTH := 1 |} 0 small_game false
           (initial_state SMove)).
  - reflexivity.
  - simpl. lia.
  - vm_compute. reflexivity.
  - reflexivity.
Defined.

(** * The example engines *)

Lemma string_leb_trans (s1 s2 s3 : String.string) :
  String.leb s1 s2 = true -> String.leb s2 s3 = true -> String.leb s1 s3 = true.
Proof.
  unfold String.leb. revert s2 s3.
  induction s1 as [|c1 s1 IH]; intros [|c2 s2] [|c3 s3]; cbn [String.compare];
    try (intros; reflexivity); try (intros; discriminate).
  unfold Ascii.compare.
  destruct (N.compare_spec (Ascii.N_of_ascii c1) (Ascii.N_of_ascii c2)) as [H12|H12|H12];
    destruct (N.compare_spec (Ascii.N_of_ascii c2) (Ascii.N_of_ascii c3)) as [H23|H23|H23];
    destruct (N.compare_spec (Ascii.N_of_ascii c1) (Ascii.N_of_ascii c3)) as [H13|H13|H13];
    try (intros; reflexivity); try (intros; discriminate); try (exfalso; lia).
  apply IH.
Qed.

Lemma string_leb_false (s1 s2 : String.string) :
  String.leb s1 s2 = false -> String.leb s2 s1 = true.
Proof.
  intros H. destruct (String.leb_total s1 s2) as [H'|H']; [congruence|exact H'].
Qed.

Section SortedByName.
Context {A : Type} (key : A -> String.string).

(** The first element of the sorted list is the first of the elements with
    the least key. *)
Lemma sort_named_head (l : list A) :
  l <> [] ->
  exists before chosen after rest,
    l = before ++ chosen :: after
    /\ sort_named (map (fun a => (key a, a)) l) = (key chosen, chosen) :: rest
    /\ (forall y, In y before -> String.leb (key y) (key chosen) = false)
    /\ (forall y, In y after -> String.leb (key chosen) (key y) = true).
Proof.
  induction l as [|x l IH]; intros Hne; [congruence|].
  destruct l as [|x' l'].
  - exists [], x, [], []. repeat split; intros y [].
  - destruct IH as (before & m & after & rest & Hsplit & Hsorted & Hbefore & Hafter);
      [discriminate|].
    set (l := x' :: l') in *.
    change (sort_named (map (fun a => (key a, a)) (x :: l)))
      with (insert_named (key x, x) (sort_named (map (fun a => (key a, a)) l))).
    rewrite Hsorted. cbn [insert_named fst].
    destruct (String.leb (key x) (key m)) eqn:Hxm.
    + exists [], x, l, ((key m, m) :: rest). repeat split.
      * intros y [].
      * intros y Hy. rewrite Hsplit in Hy. apply in_app_or in Hy.
        destruct Hy as [Hy|[<-|Hy]].
        -- apply (string_leb_trans _ (key m)); [exact Hxm|].
           apply string_leb_false, Hbefore, Hy.
        -- exact Hxm.
        -- apply (string_leb_trans _ (key m)); [exact Hxm|apply Hafter, Hy].
    + exists (x :: before), m, after, (insert_named (key x, x) rest). repeat split.
      * simpl. rewrite Hsplit. reflexivity.
      * intros y [<-|Hy]; [exact Hxm|apply Hbefore, Hy].
      * exact Hafter.
Qed.

Lemma sort_by_name_head (l : list A) :
  l <> [] ->
  exists before chosen after,
    l = before ++ chosen :: after
    /\ py_index (sort_by_name key l) 0 = Return chosen
    /\ (forall y, In y before -> String.leb (key y) (key chosen) = false)
    /\ (forall y, In y after -> String.leb (key chosen) (key y) = true).
Proof.
  intros Hne.
  destruct (sort_named_head l Hne)
    as (before & chosen & after & rest & Hsplit & Hsorted & Hbefore & Hafter).
  exists before, chosen, after. split; [exact Hsplit|]. split; [|split; assumption].
  unfold sort_by_name. rewrite combine_map, Hsorted. apply py_index_head.
Qed.

End SortedByName.

Lemma random_choice_returns {A : Type} (rnd : nat) (l : list A) :
  l <> [] -> exists x, random_choice rnd l = Return x /\ In x l.
Proof.
  intros Hne. destruct l as [|y l]; [congruence|].
  unfold random_choice.
  destruct (nth_error (y :: l) (Nat.modulo rnd (length (y :: l)))) as [x|] eqn:Hnth.
  - exists x. split; [reflexivity|apply (nth_error_In _ _ Hnth)].
  - exfalso. apply nth_error_None in Hnth.
    pose proof (Nat.mod_upper_bound rnd (length (y :: l))) as Hlt.
    cbn [length] in Hnth, Hlt. lia.
Qed.

(** X13.  The random choice: [RandomMove.search], and the entry point of the
    compressor engine in random mode, raise IndexError on a position without
    legal moves and otherwise return a legal move, whatever number is drawn;
    the entry point then passes the draw-offer flag on and, returning before
    the print, prints nothing and leaves the counter as it was. *)
Theorem random_move_choice
    {Board Move : Type} {API : ChessAPI Board Move} {Names : MoveNames Board Move}
    (rnd : nat) (board : Board) :
  (legal_moves board = [] ->
   RandomMove_search rnd board = Raise IndexError
   /\ forall depth offered (st : EngineState Move),
        search {| RANDOM := true; MAX_DEPTH := depth |} rnd board offered st
        = (Raise IndexError, st))
  /\ (legal_moves board <> [] ->
      exists m, In m (legal_moves board)
        /\ RandomMove_search rnd board
           = Return {| move := Some m; ponder := None; draw_offered := false |}
        /\ forall depth offered (st : EngineState Move),
             search {| RANDOM := true; MAX_DEPTH := depth |} rnd board offered st
             = (Return {| move := Some m; ponder := None; draw_offered := offered |}, st)).
Proof.
  split.
  - intros Hnone. unfold RandomMove_search, search. cbn [RANDOM]. rewrite Hnone.
    split; [reflexivity|]. intros depth offered st. reflexivity.
  - intros Hne. destruct (random_choice_returns rnd (legal_moves board) Hne) as (m & Hm & Hin).
    exists m. split; [exact Hin|].
    unfold RandomMove_search, search. cbn [RANDOM]. rewrite Hm.
    split; [reflexivity|]. intros depth offered st. reflexivity.
Qed.

Lemma random_move_choice_witness :
  (RandomMove_search 5 no_moves = Raise IndexError
   /\ forall depth offered (st : EngineState SMove),
        search {| RANDOM := true; MAX_DEPTH := depth |} 5 no_moves offered st
        = (Raise IndexError, st))
  /\ (exists m, In m (legal_moves small_game)
        /\ RandomMove_search 5 small_game
           = Return {| move := Some m; ponder := None; draw_offered := false |}
        /\ forall depth offered (st : EngineState SMove),
             search {| RANDOM := true; MAX_DEPTH := depth |} 5 small_game offered st
             = (Return {| move := Some m; ponder := None; draw_offered := offered |}, st)).
Proof.
  split.
  - apply (random_move_choice 5 no_moves). reflexivity.
  - apply (random_move_choice 5 small_game). simpl. discriminate.
Defined.

(** X14.  [FirstMove.search] and [Alphabetical.search] raise IndexError on a
    position without legal moves; otherwise they return the legal move whose
    name (the UCI form, respectively the SAN) is least in the lexicographic
    order of strings, and of several moves with that name the one enumerated
    first. *)
Theorem first_by_name
    {Board Move : Type} {API : ChessAPI Board Move} {Names : MoveNames Board Move}
    (board : Board) :
  (legal_moves board = [] ->
   FirstMove_search board = Raise IndexError
   /\ Alphabetical_search board = Raise IndexError)
  /\ (legal_moves board <> [] ->
      (exists before chosen after,
          legal_moves board = before ++ chosen :: after
          /\ FirstMove_search board
             = Return {| move := Some chosen; ponder := None; draw_offered := false |}
          /\ (forall m, In m before -> String.leb (str m) (str chosen) = false)
          /\ (forall m, In m after -> String.leb (str chosen) (str m) = true))
      /\ (exists before chosen after,
             legal_moves board = before ++ chosen :: after
             /\ Alphabetical_search board
                = Return {| move := Some chosen; ponder := None; draw_offered := false |}
             /\ (forall m, In m before -> String.leb (san board m) (san board chosen) = false)
             /\ (forall m, In m after -> String.leb (san board chosen) (san board m) = true))).
Proof.
  split.
  - intros Hnone. unfold FirstMove_search, Alphabetical_search. rewrite Hnone.
    split; reflexivity.
  - intros Hne. split.
    + destruct (sort_by_name_head str (legal_moves board) Hne)
        as (before & chosen & after & Hsplit & Hindex & Hbefore & Hafter).
      exists before, chosen, after. split; [exact Hsplit|]. split; [|split; assumption].
      unfold FirstMove_search. cbv zeta. rewrite Hindex. reflexivity.
    + destruct (sort_by_name_head (san board) (legal_moves board) Hne)
        as (before & chosen & after & Hsplit & Hindex & Hbefore & Hafter).
      exists before, chosen, after. split; [exact Hsplit|]. split; [|split; assumption].
      unfold Alphabetical_search. cbv zeta. rewrite Hindex. reflexivity.
Qed.

Lemma first_by_name_witness :
  (FirstMove_search no_moves = Raise IndexError
   /\ Alphabetical_search no_moves = Raise IndexError)
  /\ ((exists before chosen after,
          legal_moves small_game = before ++ chosen :: after
          /\ FirstMove_search small_game
             = Return {| move := Some chosen; ponder := None; draw_offered := false |}
          /\ (forall m, In m before -> String.leb (str m) (str chosen) = false)
          /\ (forall m, In m after -> String.leb (str chosen) (str m) = true))
      /\ (exists before chosen after,
             legal_moves small_game = before ++ chosen :: after
             /\ Alphabetical_search small_game
                = Return {| move := Some chosen; ponder := None; draw_offered := false |}
             /\ (forall m, In m before ->
                           String.leb (san small_game m) (san small_game chosen) = false)
             /\ (forall m, In m after ->
                           String.leb (san small_game chosen) (san small_game m) = true))).
Proof.
  split.
  - apply (first_by_name no_moves). reflexivity.
  - apply (first_by_name small_game). simpl. discriminate.
Defined.

(** * The single-ply mode and the position scorer *)

Section SinglePly.
Context {Board Move : Type} {API : ChessAPI Board Move}.
Open Scope py_scope.

(** The run of the single-ply mode on a well-formed position with legal
    moves. *)
Lemma single_ply_run (cfg : Config) (rnd : nat) (board : Board) (offered : bool)
    (st : EngineState Move) :
  RANDOM cfg = false -> MAX_DEPTH cfg = -1 ->
  well_formed_position board = true -> legal_moves board <> [] ->
  exists chosen v st',
    search cfg rnd board offered st
    = (Return {| move := Some chosen; ponder := None; draw_offered := offered |}, st')
    /\ In chosen (legal_moves board)
    /\ _score_move board chosen = Return v
    /\ forall m, In m (legal_moves board) ->
         exists s, _score_move board m = Return s /\ s <= v.
Proof.
  intros Hrandom Hmode Hpos Hne.
  set (g := fun m => value_of (_score_move board m)).
  assert (Hscore : forall m, In m (legal_moves board) -> _score_move board m = Return (g m)).
  { intros m Hm.
    destruct (score_move_bounds board m (well_formed_position_In board m Hpos Hm))
      as (s & Hs & _). unfold g. rewrite Hs. reflexivity. }
  destruct (reverse_sort_head g (legal_moves board) Hne)
    as (before & chosen & after & rest & Hsplit & Hsorted & Hbefore & Hafter).
  assert (Hin : In chosen (legal_moves board)).
  { rewrite Hsplit. apply in_or_app. right. left. reflexivity. }
  exists chosen, (g chosen). eexists. split; [|split; [exact Hin|split]].
  - unfold search. rewrite Hrandom, Hmode. cbn [Z.eqb Pos.eqb].
    unfold py_sorted.
    rewrite (traverse_map (_score_move board) g (legal_moves board) Hscore).
    cbn [obind]. rewrite combine_map.
    change (map (fun a => (g a, a)) (legal_moves board)) with (decorate g (legal_moves board)).
    rewrite Hsorted.
    unfold bind, lift, ret. rewrite py_index_head. reflexivity.
  - apply Hscore, Hin.
  - intros m Hm. exists (g m). split; [apply Hscore, Hm|].
    rewrite Hsplit in Hm. apply in_app_or in Hm.
    destruct Hm as [Hm|[<-|Hm]]; [specialize (Hbefore m Hm); lia|lia|apply Hafter, Hm].
Qed.


(** X16.  The position scorer agrees with the single-ply mode: on a
    well-formed position with legal moves, [_score_board] is the score of the
    move the single-ply mode chooses there. *)
Theorem score_board_is_single_ply_score (cfg : Config) (rnd : nat) (board : Board)
    (offered : bool) (st : EngineState Move) :
  RANDOM cfg = false -> MAX_DEPTH cfg = -1 ->
  well_formed_position board = true -> legal_moves board <> [] ->
  exists chosen st',
    search cfg rnd board offered st
    = (Return {| move := Some chosen; ponder := None; draw_offered := offered |}, st')
    /\ _score_board board = _score_move board chosen.
Proof.
  intros Hrandom Hmode Hpos Hne.
  destruct (single_ply_run cfg rnd board offered st Hrandom Hmode Hpos Hne)
    as (chosen & v & st' & Hrun & Hin & Hv & Hall).
  exists chosen, st'. split; [exact Hrun|].
  destruct (score_board_is_greatest board Hpos Hne) as (w & Hw & (m & Hm & Hs) & Hle).
  rewrite Hw, Hv. f_equal.
  destruct (Hall m Hm) as (s & Hs' & Hsv). rewrite Hs in Hs'. injection Hs' as <-.
  destruct (Hle chosen Hin) as (s' & Hs' & Hsw). rewrite Hv in Hs'. injection Hs' as <-.
  lia.
Qed.

End SinglePly.


Lemma score_board_is_single_ply_score_witness :
  exists chosen st',
    search module_config 0 leaf_d false (initial_state SMove)
    = (Return {| move := Some chosen; ponder := None; draw_offered := false |}, st')
    /\ _score_board leaf_d = _score_move leaf_d chosen.
Proof.
  apply (score_board_is_single_ply_score module_config 0 leaf_d false (initial_state SMove)).
  - reflexivity.
  - reflexivity.
  - reflexivity.
  - simpl. discriminate.
Defined.
